(** * Snake: the step engine, the food spawner, the direction resolver and the
    heading queue of [HomePage], embedded from the TypeScript source.

    Conventions of the embedding.
    - A JS [number] that holds a grid coordinate, a score or a duration is an
      integer, modelled by [Z]; [Math.floor (a / b)] on integers is [Z.div].
      The code computes on doubles, which is exact while the magnitudes stay
      below [2^53]: for [getNextTick] that is every score from [-2^50] up
      (for the large scores the result is 80 either way), and the statements
      that go beyond the numbers of the page carry such a bound.
    - An array is a [list]; [xs[i]] is the lookup [xs !! i], whose [None] is
      JS's [undefined].
    - A [Set<string>] is a [gset string].
    - The strings read from the storage are lists of UTF-16 code units.
    - A key name is a [string] of bytes.  [toLowerCase] acts on the letters
      [A]..[Z] only; no other character lower-cases into one of the letters of
      the seven key names that the resolver tests, so the other bytes never
      decide the outcome of its [switch].
    - A function that can raise a [TypeError] returns an [option]. *)

From stdpp Require Import base decidable option list sets gmap strings pretty.
From Stdlib Require Import ZArith Lia Ascii.

Local Open Scope Z_scope.

(** ** Types and constants *)

Inductive Direction : Set := up | right | down | left.

#[global] Instance Direction_eq_dec : EqDecision Direction.
Proof. solve_decision. Defined.

Record Point : Set := mkPoint { x : Z; y : Z }.

#[global] Instance Point_eq_dec : EqDecision Point.
Proof. solve_decision. Defined.

Definition GRID_SIZE : Z := 24.
Definition BASE_TICK_MS : Z := 150.
Definition MIN_TICK_MS : Z := 80.
Definition SPEEDUP_EVERY_POINTS : Z := 5.
Definition SPEEDUP_STEP_MS : Z := 8.

Definition DIRECTION_VECTORS (d : Direction) : Point :=
  match d with
  | up => mkPoint 0 (-1)
  | right => mkPoint 1 0
  | down => mkPoint 0 1
  | left => mkPoint (-1) 0
  end.

Definition LEFT_TURN (d : Direction) : Direction :=
  match d with
  | up => left
  | left => down
  | down => right
  | right => up
  end.

Definition RIGHT_TURN (d : Direction) : Direction :=
  match d with
  | up => right
  | right => down
  | down => left
  | left => up
  end.

Definition OPPOSITE_DIRECTION (d : Direction) : Direction :=
  match d with
  | up => down
  | down => up
  | left => right
  | right => left
  end.

(** ** Grid helpers *)

(** [`${point.x},${point.y}`]: the decimal numerals of the two coordinates,
    separated by a comma. *)
Definition pointKey (point : Point) : string :=
  pretty (x point) +:+ "," +:+ pretty (y point).

Definition createInitialSnake : list Point :=
  let center := GRID_SIZE / 2 in
  [ mkPoint center center;
    mkPoint (center - 1) center;
    mkPoint (center - 2) center ].

(** ** The random source

    [Math.floor (Math.random () * n)] is an index below [n]: the double that
    [Math.random] returns lies in [[0, 1)], and the rounded product never
    reaches [n].  The model keeps the range and not the rounding: a draw is
    a fraction [rnum / rden] with [0 <= rnum < rden] ([unit_interval]) and
    the index is the exact floor of [rnum * n / rden], so the draws range
    over exactly the indices [0 .. n - 1] (see [random_index_lt] and
    [random_index_onto]).  A draw stands for the index it yields, not for
    one particular double: which index the code computes from a given
    double is not stated anywhere below. *)
Record Random : Set := mkRandom { rnum : Z; rden : Z }.

Definition unit_interval (r : Random) : Prop := 0 <= rnum r < rden r.

Definition random_index (r : Random) (n : nat) : nat :=
  Z.to_nat (rnum r * Z.of_nat n / rden r).

(** ** Food spawner *)

(** The two nested [for] loops: rows [y = 0 .. 23], inside each the columns
    [x = 0 .. 23], in that order. *)
Definition grid_cells : list Point :=
  y ← seqZ 0 GRID_SIZE; x ← seqZ 0 GRID_SIZE; [mkPoint x y].

Definition occupied_keys (snake : list Point) : gset string :=
  list_to_set (pointKey <$> snake).

Definition emptyCells (snake : list Point) : list Point :=
  filter (λ cell, pointKey cell ∉ occupied_keys snake) grid_cells.

Definition spawnFood (rnd : Random) (snake : list Point) : option Point :=
  let cells := emptyCells snake in
  if decide (length cells = 0%nat) then snake !! 0%nat
  else cells !! random_index rnd (length cells).

Arguments spawnFood : simpl never.

(** ** Speed scaling *)

Definition getNextTick (score : Z) : Z :=
  let level := score / SPEEDUP_EVERY_POINTS in
  Z.max MIN_TICK_MS (BASE_TICK_MS - level * SPEEDUP_STEP_MS).

(** ** Direction resolver *)

(** [toLowerCase] on one byte: [A]..[Z] (65..90) move to [a]..[z]. *)
Definition lower_ascii (c : Ascii.ascii) : Ascii.ascii :=
  let n := Ascii.N_of_ascii c in
  if ((65 <=? n) && (n <=? 90))%N then Ascii.ascii_of_N (n + 32) else c.

Fixpoint toLowerCase (s : string) : string :=
  match s with
  | EmptyString => EmptyString
  | String c rest => String (lower_ascii c) (toLowerCase rest)
  end.

Definition resolveDirectionInput
    (key : string) (currentDirection : Direction) : option Direction :=
  let k := toLowerCase key in
  if String.eqb k "arrowup" then Some up
  else if String.eqb k "arrowright" then Some right
  else if String.eqb k "arrowdown" then Some down
  else if String.eqb k "arrowleft" then Some left
  else if String.eqb k "w" then Some currentDirection
  else if String.eqb k "a" then Some (LEFT_TURN currentDirection)
  else if String.eqb k "d" then Some (RIGHT_TURN currentDirection)
  else None.

(** ** Step engine *)

Module StepResult.
Record t : Set := mk {
  nextSnake : list Point;
  nextFood : option Point;
  ateFood : bool;
  isGameOver : bool
}.
End StepResult.

(** [segment.x === newHead.x && segment.y === newHead.y] *)
Definition samePoint (a b : Point) : bool :=
  (x a =? x b) && (y a =? y b).

(** [snake.slice (0, -1)]: the elements before index [length - 1]. *)
Definition slice_0_m1 (snake : list Point) : list Point :=
  take (length snake - 1)%nat snake.

(** [nextSnake.pop ()]: the array without its last element. *)
Definition pop (l : list Point) : list Point := removelast l.

(** [ateFood ? snake : snake.slice (0, -1)] *)
Definition bodyToCheck (ateFood : bool) (snake : list Point) : list Point :=
  if ateFood then snake else slice_0_m1 snake.

Definition newHeadOf (head : Point) (direction : Direction) : Point :=
  let delta := DIRECTION_VECTORS direction in
  mkPoint (x head + x delta) (y head + y delta).

Definition hitsWall (newHead : Point) : bool :=
  (x newHead <? 0) || (y newHead <? 0)
  || (x newHead >=? GRID_SIZE) || (y newHead >=? GRID_SIZE).

(** The result is [None] when [snake[0]] is [undefined] (an empty array):
    reading [head.x] raises a [TypeError]. *)
Definition stepGame (rnd : Random)
    (snake : list Point) (direction : Direction) (food : Point)
    : option StepResult.t :=
  head ← snake !! 0%nat;
  let newHead := newHeadOf head direction in
  if hitsWall newHead then
    Some (StepResult.mk snake (Some food) false true)
  else
    let ateFood := samePoint newHead food in
    if existsb (λ segment, samePoint segment newHead)
         (bodyToCheck ateFood snake) then
      Some (StepResult.mk snake (Some food) false true)
    else
      let nextSnake := newHead :: snake in
      let nextSnake := if negb ateFood then pop nextSnake else nextSnake in
      Some (StepResult.mk nextSnake
              (if ateFood then spawnFood rnd nextSnake else Some food)
              ateFood false).

(** ** The page component: game state, input queue and timer

    The React state of [HomePage] together with its two ref cells.  The best
    score, its storage and the canvas are projections of this state and are
    left out.  Each handler is a function on the state; a handler that needs
    a fresh food cell takes the draw of [Math.random], and yields [None]
    when the engine raises or hands back an [undefined] food. *)
Module HomePage.

Record State : Set := mkState {
  snake : list Point;
  direction : Direction;
  food : Point;
  score : Z;
  isStarted : bool;
  isPaused : bool;
  isGameOver : bool;
  directionRef : Direction;
  pendingDirectionRef : option Direction
}.

(** The [useState] initialisers and the initial values of the refs. *)
Definition initialState (rnd : Random) : option State :=
  f ← spawnFood rnd createInitialSnake;
  Some (mkState createInitialSnake right f 0 false false false right None).

Definition resetGame (rnd : Random) (st : State) : option State :=
  let initialSnake := createInitialSnake in
  f ← spawnFood rnd initialSnake;
  Some (mkState initialSnake right f 0 (isStarted st) false false right None).

(** [pendingDirectionRef.current ?? directionRef.current] *)
Definition activeDirection (st : State) : Direction :=
  default (directionRef st) (pendingDirectionRef st).

Definition applyInputDirection
    (requestedDirection : Direction) (st : State) : State :=
  if decide (requestedDirection = OPPOSITE_DIRECTION (activeDirection st))
  then st
  else mkState (snake st) (direction st) (food st) (score st)
         (isStarted st) (isPaused st) (isGameOver st)
         (directionRef st) (Some requestedDirection).

Definition togglePaused (st : State) : State :=
  mkState (snake st) (direction st) (food st) (score st)
    (isStarted st) (negb (isPaused st)) (isGameOver st)
    (directionRef st) (pendingDirectionRef st).

Definition onKeyDown (key : string) (st : State) : State :=
  if String.eqb key " " then
    if negb (isStarted st) || isGameOver st then st else togglePaused st
  else
    match resolveDirectionInput key (directionRef st) with
    | None => st
    | Some mapped =>
        if negb (isStarted st) || isPaused st || isGameOver st then st
        else applyInputDirection mapped st
    end.

(** The timer effect arms a timeout only in a started, unpaused, live game. *)
Definition timerArmed (st : State) : bool :=
  negb (negb (isStarted st) || isPaused st || isGameOver st).

(** The timeout callback: commit the active heading, then step. *)
Definition onTimeout (rnd : Random) (st : State) : option State :=
  let active := activeDirection st in
  result ← stepGame rnd (snake st) active (food st);
  f ← StepResult.nextFood result;
  Some (mkState
          (StepResult.nextSnake result)
          active
          f
          (if StepResult.ateFood result then score st + 1 else score st)
          (isStarted st)
          (if StepResult.isGameOver result then false else isPaused st)
          (if StepResult.isGameOver result then true else isGameOver st)
          active
          None).

Definition clickStart (rnd : Random) (st : State) : option State :=
  st1 ← (if negb (isStarted st) then resetGame rnd st else Some st);
  Some (mkState (snake st1) (direction st1) (food st1) (score st1)
          true false false (directionRef st1) (pendingDirectionRef st1)).

(** The Pause button is disabled unless the game is started and live. *)
Definition pauseEnabled (st : State) : bool :=
  negb (negb (isStarted st) || isGameOver st).

Definition clickPause (st : State) : State := togglePaused st.

Definition clickRestart (rnd : Random) (st : State) : option State :=
  st1 ← resetGame rnd st;
  Some (mkState (snake st1) (direction st1) (food st1) (score st1)
          true (isPaused st1) (isGameOver st1)
          (directionRef st1) (pendingDirectionRef st1)).

(** One event of the page; every draw of [Math.random] lies in [[0, 1)]. *)
Inductive step : State → State → Prop :=
| step_key key st :
    step st (onKeyDown key st)
| step_timeout rnd st st' :
    unit_interval rnd → timerArmed st = true →
    onTimeout rnd st = Some st' → step st st'
| step_start rnd st st' :
    unit_interval rnd → clickStart rnd st = Some st' → step st st'
| step_pause st :
    pauseEnabled st = true → step st (clickPause st)
| step_restart rnd st st' :
    unit_interval rnd → clickRestart rnd st = Some st' → step st st'.

Inductive reachable : State → Prop :=
| reachable_init rnd st :
    unit_interval rnd → initialState rnd = Some st → reachable st
| reachable_step st st' :
    reachable st → step st st' → reachable st'.

(** The inputs queued between two timeouts, oldest first. *)
Definition queueAll (requests : list Direction) (st : State) : State :=
  foldl (λ s r, applyInputDirection r s) st requests.

Definition pressAll (keys : list string) (st : State) : State :=
  foldl (λ s k, onKeyDown k s) st keys.

(** Two states of a session in which every draw of [Math.random] is [0]:
    the page as first rendered, and the game after a click on Start. *)
Definition mounted : State :=
  mkState createInitialSnake right (mkPoint 0 0) 0
    false false false right None.

Definition running : State :=
  mkState createInitialSnake right (mkPoint 0 0) 0
    true false false right None.

End HomePage.

(** A cell of the board: both coordinates in [[0, GRID_SIZE)]. *)
Definition inGrid (c : Point) : Prop :=
  (0 <= x c < GRID_SIZE) ∧ (0 <= y c < GRID_SIZE).

(** Key names that are equal up to the case of their letters. *)
Definition isUpper (c : Ascii.ascii) : Prop :=
  (65 <= Ascii.N_of_ascii c <= 90)%N.

Definition sameLetter (a b : Ascii.ascii) : Prop :=
  a = b
  ∨ (isUpper a ∧ Ascii.N_of_ascii b = (Ascii.N_of_ascii a + 32)%N)
  ∨ (isUpper b ∧ Ascii.N_of_ascii a = (Ascii.N_of_ascii b + 32)%N).

Fixpoint sameKey (s t : string) : Prop :=
  match s, t with
  | EmptyString, EmptyString => True
  | String a s', String b t' => sameLetter a b ∧ sameKey s' t'
  | _, _ => False
  end.

(** The keys of the relative turns: [w], [a] and [d] in either case. *)
Definition relativeKey (key : string) : Prop :=
  sameKey key "w" ∨ sameKey key "a" ∨ sameKey key "d".

(** [occurs c s]: the character [c] is one of the characters of [s]. *)
Fixpoint occurs (c : Ascii.ascii) (s : string) : Prop :=
  match s with
  | EmptyString => False
  | String a rest => a = c ∨ occurs c rest
  end.

(** Two cells one orthogonal step apart. *)
Definition adjacent (a b : Point) : Prop :=
  Z.abs (x a - x b) + Z.abs (y a - y b) = 1.

(** A chain of cells, each one step from the next. *)
Fixpoint contiguous (l : list Point) : Prop :=
  match l with
  | a :: (b :: _) as rest => adjacent a b ∧ contiguous rest
  | _ => True
  end.

(** The snake covers every cell of the board. *)
Definition boardFull (snake : list Point) : Prop :=
  ∀ c, inGrid c → c ∈ snake.

(** ** The best score and its storage

    A JS string is the list of its UTF-16 code units.  [window.localStorage]
    is a map from keys to strings, or [None] when every access to it raises
    (private contexts); the [catch] blocks swallow the exception.

    [String (n)] of an integer [n] below [10^21] in magnitude is its decimal
    numeral ([numberToString]; the page prints scores only).

    [Number.parseInt (s, 10)] strips the leading white space and line
    terminators of [s], reads an optional sign and the longest run of decimal
    digits, and is [NaN] when there is no digit; otherwise it is the double
    nearest to the integer read (ties to the even significand, infinite from
    [2^1024 - 2^970] on), as the engines compute it. *)
Abbreviation JSString := (list N).

Definition BEST_SCORE_KEY : string := "snake-best-score".

(** The code units of a literal of ASCII characters. *)
Definition codeUnits (s : string) : JSString :=
  Ascii.N_of_ascii <$> String.list_ascii_of_string s.

Definition numberToString (n : Z) : JSString := codeUnits (pretty n).

Inductive Number : Set :=
| NaN
| Finite (value : Z)
| PosInfinity
| NegInfinity.

(** White space and line terminators: TAB, LF, VT, FF, CR, SP, NBSP,
    U+1680, U+2000..U+200A, U+2028, U+2029, U+202F, U+205F, U+3000, U+FEFF. *)
Definition isWhiteSpace (u : N) : bool :=
  ((9 <=? u) && (u <=? 13) || (u =? 32) || (u =? 160) || (u =? 5760)
   || (8192 <=? u) && (u <=? 8202)
   || (u =? 8232) || (u =? 8233) || (u =? 8239) || (u =? 8287)
   || (u =? 12288) || (u =? 65279))%N.

Fixpoint trimStart (s : JSString) : JSString :=
  match s with
  | u :: rest => if isWhiteSpace u then trimStart rest else s
  | [] => s
  end.

Definition digitValue (u : N) : option N :=
  if ((48 <=? u) && (u <=? 57))%N then Some (u - 48)%N else None.

(** The leading digits of [s] read on top of the digits read so far
    ([acc], [None] when none was read). *)
Fixpoint parseDigits (acc : option N) (s : JSString) : option N :=
  match s with
  | u :: rest =>
      match digitValue u with
      | Some d => parseDigits (Some (10 * default 0 acc + d)%N) rest
      | None => acc
      end
  | [] => acc
  end.

(** The double nearest to the integer [m >= 0]; [None] when it is
    infinite.  Below [2^53] every integer is a double. *)
Definition roundToDouble (m : Z) : option Z :=
  let e := Z.log2 m in
  if e <? 53 then Some m
  else
    let shift := e - 52 in
    let q := Z.shiftr m shift in
    let r := m - Z.shiftl q shift in
    let half := Z.shiftl 1 (shift - 1) in
    let q' := if (half <? r) || ((r =? half) && Z.odd q) then q + 1 else q in
    let v := Z.shiftl q' shift in
    if 2 ^ 1024 <=? v then None else Some v.

Definition toNumber (negative : bool) (m : Z) : Number :=
  match roundToDouble m with
  | Some v => Finite (if negative then - v else v)
  | None => if negative then NegInfinity else PosInfinity
  end.

Definition parseInt (input : JSString) : Number :=
  let trimmed := trimStart input in
  let '(negative, digits) :=
    match trimmed with
    | u :: rest =>
        if (u =? 45)%N then (true, rest)
        else if (u =? 43)%N then (false, rest)
        else (false, trimmed)
    | [] => (false, trimmed)
    end in
  match parseDigits None digits with
  | Some n => toNumber negative (Z.of_N n)
  | None => NaN
  end.

Definition isNaN (n : Number) : bool :=
  match n with NaN => true | _ => false end.

(** [score > bestScore] for an integer score. *)
Definition greaterThan (score : Z) (bestScore : Number) : bool :=
  match bestScore with
  | Finite best => score >? best
  | NegInfinity => true
  | PosInfinity | NaN => false
  end.

(** The effect that runs once after the first render. *)
Definition loadBestScore
    (localStorage : option (gmap string JSString)) (bestScore : Number)
    : Number :=
  match localStorage with
  | None => bestScore
  | Some items =>
      match items !! BEST_SCORE_KEY with
      | None => bestScore
      | Some [] => bestScore
      | Some stored =>
          let parsed := parseInt stored in
          if isNaN parsed then bestScore else parsed
      end
  end.

Arguments loadBestScore : simpl never.
Arguments parseInt : simpl never.
Arguments numberToString : simpl never.

(** The effect that runs when the score or the best score has changed;
    [quotaLeft] says whether [setItem] succeeds on a storage that is there. *)
Definition saveBestScore (quotaLeft : bool) (score : Z)
    (bestScore : Number) (localStorage : option (gmap string JSString))
    : Number * option (gmap string JSString) :=
  if greaterThan score bestScore then
    (Finite score,
     if quotaLeft
     then (λ items, <[BEST_SCORE_KEY := numberToString score]> items)
            <$> localStorage
     else localStorage)
  else (bestScore, localStorage).

(** ** What the page shows *)

Definition statusLabel (st : HomePage.State) : string :=
  if HomePage.isGameOver st then "Game Over"
  else if HomePage.isStarted st then
    if HomePage.isPaused st then "Пауза" else "Игра идёт"
  else "Не начато".

Definition pauseButtonLabel (st : HomePage.State) : string :=
  if HomePage.isPaused st then "Resume" else "Pause".

(** ** The canvas

    The drawing effect, as the calls it makes on the 2D context, in the
    logical coordinates of the board.  The size of the canvas in device
    pixels and the transform that scales by [devicePixelRatio] are left out.
    [cellSize] is [logicalSize / GRID_SIZE], exactly 25. *)
Definition DESKTOP_BOARD_SIZE : Z := 600.

Inductive DrawCall : Set :=
| clearRect (x y w h : Z)
| fillStyle (colour : string)
| fillRect (x y w h : Z)
| strokeStyle (colour : string)
| lineWidth (width : Z)
| beginPath
| moveTo (x y : Z)
| lineTo (x y : Z)
| stroke.

Definition drawGridLine (logicalSize cellSize i : Z) : list DrawCall :=
  let offset := i * cellSize in
  [ beginPath; moveTo offset 0; lineTo offset logicalSize; stroke;
    beginPath; moveTo 0 offset; lineTo logicalSize offset; stroke ].

Definition drawSegment (cellSize : Z) (index : nat) (segment : Point)
    : list DrawCall :=
  [ fillStyle (if decide (index = 0%nat) then "#22c55e" else "#4ade80");
    fillRect (x segment * cellSize + 1) (y segment * cellSize + 1)
      (cellSize - 2) (cellSize - 2) ].

Definition drawBoard (snake : list Point) (food : Point) : list DrawCall :=
  let logicalSize := DESKTOP_BOARD_SIZE in
  let cellSize := logicalSize / GRID_SIZE in
  [ clearRect 0 0 logicalSize logicalSize;
    fillStyle "#020617";
    fillRect 0 0 logicalSize logicalSize;
    strokeStyle "rgba(148, 163, 184, 0.18)";
    lineWidth 1 ]
  ++ (i ← seqZ 0 (GRID_SIZE + 1); drawGridLine logicalSize cellSize i)
  ++ [ fillStyle "#f43f5e";
       fillRect (x food * cellSize + 2) (y food * cellSize + 2)
         (cellSize - 4) (cellSize - 4) ]
  ++ concat (imap (drawSegment cellSize) snake).

(** A call that draws inside the board: rectangles and points within
    [[0, 600] x [0, 600]]. *)
Definition onCanvas (call : DrawCall) : Prop :=
  match call with
  | clearRect x y w h | fillRect x y w h =>
      0 <= x ∧ 0 <= y ∧ 0 < w ∧ 0 < h
      ∧ x + w <= DESKTOP_BOARD_SIZE ∧ y + h <= DESKTOP_BOARD_SIZE
  | moveTo x y | lineTo x y =>
      0 <= x <= DESKTOP_BOARD_SIZE ∧ 0 <= y <= DESKTOP_BOARD_SIZE
  | _ => True
  end.

(** What the fills leave at the pixel [(px, py)] of the logical canvas:
    the fill style of the last [fillRect] that covers it, and nothing when a
    [clearRect] covered it last or nothing ever did.  The grid lines are
    strokes, not fills.  A fresh context fills with black. *)
Definition covers (x y w h px py : Z) : bool :=
  (x <=? px) && (px <? x + w) && (y <=? py) && (py <? y + h).

Definition paint (px py : Z) (state : string * option string)
    (call : DrawCall) : string * option string :=
  match call with
  | fillStyle colour => (colour, state.2)
  | fillRect x y w h =>
      (state.1, if covers x y w h px py then Some state.1 else state.2)
  | clearRect x y w h =>
      (state.1, if covers x y w h px py then None else state.2)
  | _ => state
  end.

Definition filledColour (calls : list DrawCall) (px py : Z)
    : option string :=
  (foldl (paint px py) ("#000000", None) calls).2.

(** The pixels of the cell [c] that are at least [margin] away from its
    border, for cells of 25 by 25 pixels. *)
Definition cellSquare (margin : Z) (c : Point) (px py : Z) : Prop :=
  (x c * 25 + margin <= px < (x c + 1) * 25 - margin)
  ∧ (y c * 25 + margin <= py < (y c + 1) * 25 - margin).

(** * Properties *)

(** ** The definitions at work *)

Example getNextTick_0 : getNextTick 0 = 150.
Proof. reflexivity. Qed.

Example spawnFood_initial :
  spawnFood (mkRandom 0 1) createInitialSnake = Some (mkPoint 0 0).
Proof. vm_compute. reflexivity. Qed.

Example stepGame_eats :
  StepResult.nextSnake <$>
    stepGame (mkRandom 0 1) createInitialSnake right (mkPoint 13 12)
  = Some [mkPoint 13 12; mkPoint 12 12; mkPoint 11 12; mkPoint 10 12].
Proof. vm_compute. reflexivity. Qed.

Example stepGame_wall_left food :
  stepGame (mkRandom 0 1) [mkPoint 0 12; mkPoint 1 12; mkPoint 2 12] left food
  = Some (StepResult.mk [mkPoint 0 12; mkPoint 1 12; mkPoint 2 12]
            (Some food) false true).
Proof. reflexivity. Qed.

Example resolve_ArrowUp : resolveDirectionInput "ArrowUp" down = Some up.
Proof. reflexivity. Qed.

(** ** Keys of cells: [pointKey] is injective *)

Section PointKey.

Let comma : Ascii.ascii := ","%char.

Lemma occurs_app c s t : occurs c (s +:+ t) ↔ occurs c s ∨ occurs c t.
Proof.
  induction s as [|a s IH]; simpl; [tauto|]. rewrite IH. tauto.
Qed.

Lemma pretty_N_char_not_comma n : pretty_N_char n ≠ comma.
Proof. unfold pretty_N_char, comma. by repeat case_match. Qed.

Lemma pretty_N_go_not_comma n s :
  ¬ occurs comma s → ¬ occurs comma (pretty_N_go n s).
Proof.
  revert s. induction (N.lt_wf_0 n) as [n _ IH]; intros s Hs.
  destruct (decide (n = 0%N)) as [->|Hn].
  - by rewrite pretty_N_go_0.
  - rewrite pretty_N_go_step by lia. apply IH.
    + apply N.div_lt; lia.
    + simpl. intros [Hc|Hc]; [by apply pretty_N_char_not_comma in Hc|done].
Qed.

Lemma pretty_N_not_comma (n : N) : ¬ occurs comma (pretty n).
Proof.
  unfold pretty, pretty_N. case_decide.
  - simpl. unfold comma. intros [?|[]]. discriminate.
  - apply pretty_N_go_not_comma. simpl. tauto.
Qed.

Lemma pretty_Z_not_comma (z : Z) : ¬ occurs comma (pretty z).
Proof.
  unfold pretty, pretty_Z. destruct z as [|p|p].
  - simpl. unfold comma. intros [?|[]]. discriminate.
  - apply (pretty_N_not_comma (Npos p)).
  - rewrite occurs_app. intros [H|H].
    + simpl in H. unfold comma in H. destruct H as [?|[]]. discriminate.
    + by apply (pretty_N_not_comma (Npos p)) in H.
Qed.

Lemma split_at_separator c s1 s2 t1 t2 :
  ¬ occurs c s1 → ¬ occurs c s2 →
  s1 +:+ String c t1 = s2 +:+ String c t2 → s1 = s2 ∧ t1 = t2.
Proof.
  revert s2. induction s1 as [|a s1 IH]; intros [|b s2] H1 H2 Heq;
    simpl in *.
  - by inversion Heq.
  - inversion Heq; subst. tauto.
  - inversion Heq; subst. tauto.
  - inversion Heq; subst.
    destruct (IH s2) as [-> ->]; [tauto..|done|done].
Qed.

Lemma pointKey_inj p q : pointKey p = pointKey q → p = q.
Proof.
  destruct p as [px py], q as [qx qy]. unfold pointKey. simpl. intros Heq.
  apply (split_at_separator comma) in Heq as [Hx Hy];
    [|apply pretty_Z_not_comma..].
  apply (inj pretty) in Hx. apply (inj pretty) in Hy. congruence.
Qed.

End PointKey.

(** ** Key names: [toLowerCase] decides equality up to case *)

Lemma N_of_ascii_inj a b : Ascii.N_of_ascii a = Ascii.N_of_ascii b → a = b.
Proof.
  intros H. rewrite <-(Ascii.ascii_N_embedding a), <-(Ascii.ascii_N_embedding b).
  by rewrite H.
Qed.

Lemma N_of_lower_ascii c :
  Ascii.N_of_ascii (lower_ascii c)
  = (if ((65 <=? Ascii.N_of_ascii c) && (Ascii.N_of_ascii c <=? 90))%N
     then Ascii.N_of_ascii c + 32 else Ascii.N_of_ascii c)%N.
Proof.
  unfold lower_ascii.
  destruct ((65 <=? Ascii.N_of_ascii c) && (Ascii.N_of_ascii c <=? 90))%N
    eqn:Hup; [|done].
  apply andb_true_iff in Hup as [H1%N.leb_le H2%N.leb_le].
  apply Ascii.N_ascii_embedding. lia.
Qed.

Lemma sameLetter_lower a b : sameLetter a b ↔ lower_ascii a = lower_ascii b.
Proof.
  unfold sameLetter, isUpper. split.
  - intros H. apply N_of_ascii_inj. rewrite !N_of_lower_ascii.
    destruct H as [->|[[Ha Hb]|[Hb Ha]]]; [done|..];
      repeat (case_match; try done);
      repeat match goal with
        | H : (_ && _)%bool = true |- _ =>
            apply andb_true_iff in H as [?%N.leb_le ?%N.leb_le]
        | H : (_ && _)%bool = false |- _ =>
            apply andb_false_iff in H as [?%N.leb_gt|?%N.leb_gt]
        end; lia.
  - intros H. apply (f_equal Ascii.N_of_ascii) in H.
    rewrite !N_of_lower_ascii in H.
    destruct ((65 <=? Ascii.N_of_ascii a) && (Ascii.N_of_ascii a <=? 90))%N
      eqn:Ha;
    destruct ((65 <=? Ascii.N_of_ascii b) && (Ascii.N_of_ascii b <=? 90))%N
      eqn:Hb;
    try (apply andb_true_iff in Ha as [?%N.leb_le ?%N.leb_le]);
    try (apply andb_true_iff in Hb as [?%N.leb_le ?%N.leb_le]).
    + left. apply N_of_ascii_inj. lia.
    + right. left. split; [lia|]. lia.
    + right. right. split; [lia|]. lia.
    + left. by apply N_of_ascii_inj.
Qed.

Lemma sameKey_lower s t : sameKey s t ↔ toLowerCase s = toLowerCase t.
Proof.
  revert t. induction s as [|a s IH]; intros [|b t]; simpl; try done.
  rewrite sameLetter_lower, IH. split; [by intros [-> ->]|by intros [= -> ->]].
Qed.

(** ** The random index *)

Lemma random_index_lt rnd (n : nat) :
  unit_interval rnd → (0 < n)%nat → (random_index rnd n < n)%nat.
Proof.
  unfold unit_interval, random_index. intros [Hlo Hhi] Hn.
  apply Nat2Z.inj_lt. rewrite Z2Nat.id.
  - apply Z.div_lt_upper_bound; [lia|]. nia.
  - apply Z.div_pos; [nia|lia].
Qed.

Lemma random_index_onto (i n : nat) :
  (i < n)%nat →
  unit_interval (mkRandom (Z.of_nat i) (Z.of_nat n)) ∧
  random_index (mkRandom (Z.of_nat i) (Z.of_nat n)) n = i.
Proof.
  intros Hi. unfold unit_interval, random_index. simpl. split; [lia|].
  rewrite Z.div_mul by lia. apply Nat2Z.id.
Qed.

(** ** The board and the empty cells *)

Lemma elem_of_grid_cells c : c ∈ grid_cells ↔ inGrid c.
Proof.
  unfold grid_cells, inGrid, GRID_SIZE. rewrite list_elem_of_bind. split.
  - intros (cy & Hc & Hy). apply list_elem_of_bind in Hc as (cx & Hc & Hx).
    apply list_elem_of_singleton in Hc as ->. simpl.
    apply elem_of_seqZ in Hx, Hy. lia.
  - intros [Hx Hy]. exists (y c). split; [|apply elem_of_seqZ; lia].
    apply list_elem_of_bind. exists (x c). split; [|apply elem_of_seqZ; lia].
    destruct c. simpl. apply list_elem_of_singleton. done.
Qed.

Lemma elem_of_occupied_keys c snake :
  pointKey c ∈ occupied_keys snake ↔ c ∈ snake.
Proof.
  unfold occupied_keys. rewrite elem_of_list_to_set, list_elem_of_fmap. split.
  - intros (c' & Hk & Hc'). by apply pointKey_inj in Hk as ->.
  - intros Hc. by exists c.
Qed.

Lemma elem_of_emptyCells c snake :
  c ∈ emptyCells snake ↔ inGrid c ∧ c ∉ snake.
Proof.
  unfold emptyCells.
  rewrite list_elem_of_filter, elem_of_occupied_keys, elem_of_grid_cells.
  tauto.
Qed.

(** ** Food spawner *)

Lemma spawnFood_empty_cell rnd snake :
  unit_interval rnd → emptyCells snake ≠ [] →
  ∃ c, spawnFood rnd snake = Some c ∧ c ∈ emptyCells snake.
Proof.
  intros Hrnd Hne. unfold spawnFood. simpl.
  destruct (emptyCells snake) as [|c0 cells] eqn:Hcells; [done|].
  case_decide as Hlen; [done|].
  destruct (lookup_lt_is_Some_2 (c0 :: cells)
              (random_index rnd (length (c0 :: cells)))) as [c Hc].
  { apply random_index_lt; [done|simpl; lia]. }
  exists c. split; [done|]. by eapply list_elem_of_lookup_2.
Qed.

(** Every empty cell is the outcome of some draw. *)
Lemma spawnFood_any_empty_cell snake c :
  c ∈ emptyCells snake →
  ∃ rnd, unit_interval rnd ∧ spawnFood rnd snake = Some c.
Proof.
  intros Hc. apply list_elem_of_lookup in Hc as [i Hi].
  pose proof (lookup_lt_Some _ _ _ Hi) as Hlt.
  destruct (random_index_onto i (length (emptyCells snake)) Hlt)
    as [Hrnd Hidx].
  eexists. split; [exact Hrnd|].
  unfold spawnFood. simpl. case_decide as Hlen; [lia|]. by rewrite Hidx.
Qed.

Lemma spawnFood_full_board rnd snake :
  emptyCells snake = [] → spawnFood rnd snake = snake !! 0%nat.
Proof. intros H. unfold spawnFood. simpl. by rewrite H. Qed.

Lemma emptyCells_nil_iff snake :
  emptyCells snake = [] ↔ ∀ c, inGrid c → c ∈ snake.
Proof.
  split.
  - intros H c Hc. destruct (decide (c ∈ snake)) as [|Hn]; [done|].
    assert (c ∈ emptyCells snake) as Hin by by apply elem_of_emptyCells.
    rewrite H in Hin. by apply elem_of_nil in Hin.
  - intros H. destruct (emptyCells snake) as [|c l] eqn:E; [done|].
    assert (c ∈ emptyCells snake) as Hin by (rewrite E; left).
    apply elem_of_emptyCells in Hin as [Hg Hn]. by destruct Hn; apply H.
Qed.

Lemma spawnFood_is_Some rnd snake :
  unit_interval rnd → is_Some (spawnFood rnd snake).
Proof.
  intros Hrnd. destruct (emptyCells snake) as [|c l] eqn:E.
  - rewrite spawnFood_full_board by done.
    apply lookup_lt_is_Some_2.
    assert (mkPoint 0 0 ∈ snake) as Hin.
    { apply emptyCells_nil_iff; [done|]. unfold inGrid, GRID_SIZE. simpl. lia. }
    destruct snake; [by apply elem_of_nil in Hin|simpl; lia].
  - destruct (spawnFood_empty_cell rnd snake) as (c' & -> & _); [done|by rewrite E|].
    by eexists.
Qed.

(** ** Step engine: the three outcomes *)

Lemma samePoint_true a b : samePoint a b = true ↔ a = b.
Proof.
  unfold samePoint. rewrite andb_true_iff, !Z.eqb_eq.
  destruct a, b; simpl. split; [intros [-> ->]; done|by intros [= -> ->]].
Qed.

Lemma samePoint_bool_decide a b : samePoint a b = bool_decide (a = b).
Proof.
  apply eq_true_iff_eq. by rewrite samePoint_true, bool_decide_eq_true.
Qed.

Lemma collides_true newHead body :
  existsb (λ segment, samePoint segment newHead) body = true ↔ newHead ∈ body.
Proof.
  rewrite existsb_exists. split.
  - intros (s & Hin & Hs). apply samePoint_true in Hs as ->.
    by apply list_elem_of_In.
  - intros Hin. exists newHead. split; [by apply list_elem_of_In|].
    by apply samePoint_true.
Qed.

Lemma collides_false newHead body :
  existsb (λ segment, samePoint segment newHead) body = false ↔ newHead ∉ body.
Proof.
  rewrite <-collides_true. by destruct (existsb _ _).
Qed.

Lemma hitsWall_false p : hitsWall p = false ↔ inGrid p.
Proof.
  unfold hitsWall, inGrid. rewrite !orb_false_iff.
  rewrite !Z.ltb_ge, !Z.geb_leb, !Z.leb_gt. lia.
Qed.

Lemma hitsWall_true p : hitsWall p = true ↔ ¬ inGrid p.
Proof.
  rewrite <-hitsWall_false. by destruct (hitsWall p).
Qed.

Lemma slice_0_m1_removelast snake : slice_0_m1 snake = removelast snake.
Proof.
  unfold slice_0_m1. rewrite removelast_firstn_len. by rewrite Nat.sub_1_r.
Qed.

Lemma pop_cons newHead snake :
  snake ≠ [] → pop (newHead :: snake) = newHead :: slice_0_m1 snake.
Proof.
  intros Hne. unfold pop. rewrite slice_0_m1_removelast.
  destruct snake; [done|reflexivity].
Qed.

Lemma length_slice_0_m1 snake :
  length (slice_0_m1 snake) = (length snake - 1)%nat.
Proof. unfold slice_0_m1. rewrite length_take. lia. Qed.

(** Hitting the wall. *)
Lemma stepGame_wall rnd head tail direction food :
  ¬ inGrid (newHeadOf head direction) →
  stepGame rnd (head :: tail) direction food
  = Some (StepResult.mk (head :: tail) (Some food) false true).
Proof.
  intros Hw. apply hitsWall_true in Hw. unfold stepGame. simpl. by rewrite Hw.
Qed.

(** Running into the body. *)
Lemma stepGame_body rnd head tail direction food :
  let newHead := newHeadOf head direction in
  inGrid newHead →
  newHead ∈ bodyToCheck (samePoint newHead food) (head :: tail) →
  stepGame rnd (head :: tail) direction food
  = Some (StepResult.mk (head :: tail) (Some food) false true).
Proof.
  intros newHead Hg Hc. apply hitsWall_false in Hg. apply collides_true in Hc.
  unfold stepGame. simpl. fold newHead. by rewrite Hg, Hc.
Qed.

(** Moving on. *)
Lemma stepGame_free rnd head tail direction food :
  let snake := head :: tail in
  let newHead := newHeadOf head direction in
  let ate := samePoint newHead food in
  inGrid newHead →
  newHead ∉ bodyToCheck ate snake →
  stepGame rnd snake direction food
  = Some (StepResult.mk
            (if ate then newHead :: snake else pop (newHead :: snake))
            (if ate then spawnFood rnd (newHead :: snake) else Some food)
            ate false).
Proof.
  intros snake newHead ate Hg Hc.
  apply hitsWall_false in Hg. apply collides_false in Hc.
  unfold stepGame. simpl. fold newHead ate snake. rewrite Hg, Hc.
  by destruct ate.
Qed.

(** Every result of [stepGame] is one of the three above. *)
Lemma stepGame_Some_inv rnd snake direction food r :
  stepGame rnd snake direction food = Some r →
  ∃ head tail,
    snake = head :: tail ∧
    let newHead := newHeadOf head direction in
    let ate := samePoint newHead food in
    (r = StepResult.mk snake (Some food) false true ∧
     (¬ inGrid newHead ∨ newHead ∈ bodyToCheck ate snake))
    ∨ (r = StepResult.mk
             (if ate then newHead :: snake else newHead :: slice_0_m1 snake)
             (if ate then spawnFood rnd (newHead :: snake) else Some food)
             ate false ∧
       inGrid newHead ∧ newHead ∉ bodyToCheck ate snake).
Proof.
  destruct snake as [|head tail]; [done|]. intros Hr.
  exists head, tail. split; [done|]. intros newHead ate.
  destruct (decide (inGrid newHead)) as [Hg|Hg].
  - destruct (decide (newHead ∈ bodyToCheck ate (head :: tail))) as [Hc|Hc].
    + rewrite stepGame_body in Hr by done. left. split; [congruence|by right].
    + rewrite stepGame_free in Hr by done. right. split; [|done].
      rewrite pop_cons in Hr by done. fold newHead ate in Hr. congruence.
  - rewrite stepGame_wall in Hr by done. left. split; [congruence|by left].
Qed.

Lemma stepGame_returns_food rnd head tail direction food :
  unit_interval rnd →
  ∃ r f, stepGame rnd (head :: tail) direction food = Some r ∧
         StepResult.nextFood r = Some f.
Proof.
  intros Hrnd. set (newHead := newHeadOf head direction).
  destruct (decide (inGrid newHead)) as [Hg|Hg].
  - destruct (decide (newHead ∈ bodyToCheck (samePoint newHead food)
                                   (head :: tail))) as [Hc|Hc].
    + do 2 eexists. split; [by apply stepGame_body|done].
    + destruct (spawnFood_is_Some rnd (newHead :: head :: tail) Hrnd)
        as [f Hf].
      exists (StepResult.mk
                (if samePoint newHead food then newHead :: head :: tail
                 else pop (newHead :: head :: tail))
                (if samePoint newHead food
                 then spawnFood rnd (newHead :: head :: tail) else Some food)
                (samePoint newHead food) false),
             (if samePoint newHead food then f else food).
      split; [by apply stepGame_free|]. simpl.
      by destruct (samePoint newHead food).
  - do 2 eexists. split; [by apply stepGame_wall|done].
Qed.

Lemma stepGame_returns rnd head tail direction food :
  is_Some (stepGame rnd (head :: tail) direction food).
Proof.
  unfold stepGame. simpl. repeat case_match; by eexists.
Qed.

Lemma NoDup_slice_0_m1 snake : NoDup snake → NoDup (slice_0_m1 snake).
Proof. intros H. eapply sublist_NoDup; [done|apply sublist_take]. Qed.

Lemma stepGame_NoDup rnd snake direction food r :
  NoDup snake →
  stepGame rnd snake direction food = Some r →
  StepResult.isGameOver r = false →
  NoDup (StepResult.nextSnake r).
Proof.
  intros Hnd Hr Hlive.
  apply stepGame_Some_inv in Hr as (head & tail & -> & [[-> _]|(-> & _ & Hc)]);
    [done|]. simpl. unfold bodyToCheck in Hc.
  destruct (samePoint _ food); apply NoDup_cons; split; try done.
  by apply NoDup_slice_0_m1.
Qed.

Lemma stepGame_length rnd snake direction food r :
  stepGame rnd snake direction food = Some r →
  length (StepResult.nextSnake r)
  = (if StepResult.ateFood r then S (length snake) else length snake).
Proof.
  intros Hr.
  apply stepGame_Some_inv in Hr as (head & tail & -> & [[-> _]|(-> & _ & _)]);
    [done|]. simpl.
  destruct (samePoint _ food); simpl; [done|].
  rewrite length_slice_0_m1. simpl. lia.
Qed.

(** C1.  When the new head (the head moved by the heading's unit vector)
    lies on the board and outside the collision check set, [stepGame] reports
    no game over, [ateFood] says whether the new head is the food cell, the
    next snake is the new head in front of the body, without its last cell
    exactly when nothing was eaten, and the next food is the old one when
    nothing was eaten and a cell spawned against the new body otherwise.
    For the snake [(12,12),(11,12),(10,12)] heading right with food at
    [(13,12)], the body becomes [(13,12),(12,12),(11,12),(10,12)], the food is
    eaten and the new food is a board cell outside the new body. *)
Theorem stepGame_moves :
  (∀ rnd head tail direction food,
     let snake := head :: tail in
     let newHead := newHeadOf head direction in
     let ate := bool_decide (newHead = food) in
     inGrid newHead →
     newHead ∉ bodyToCheck ate snake →
     ∃ r, stepGame rnd snake direction food = Some r ∧
          StepResult.isGameOver r = false ∧
          StepResult.ateFood r = ate ∧
          StepResult.nextSnake r =
            (if ate then newHead :: snake
             else removelast (newHead :: snake)) ∧
          StepResult.nextFood r =
            (if ate then spawnFood rnd (StepResult.nextSnake r)
             else Some food))
  ∧ (∀ rnd, unit_interval rnd →
       ∃ f, stepGame rnd [mkPoint 12 12; mkPoint 11 12; mkPoint 10 12]
              right (mkPoint 13 12)
            = Some (StepResult.mk
                      [mkPoint 13 12; mkPoint 12 12; mkPoint 11 12;
                       mkPoint 10 12]
                      (Some f) true false) ∧
            inGrid f ∧
            f ∉ [mkPoint 13 12; mkPoint 12 12; mkPoint 11 12; mkPoint 10 12]).
Proof.
  split.
  - intros rnd head tail direction food snake newHead ate Hg Hc.
    subst ate. rewrite <-samePoint_bool_decide in *.
    eexists. split; [by apply stepGame_free|]. simpl. fold newHead snake.
    by destruct (samePoint newHead food).
  - intros rnd Hrnd.
    set (body := [mkPoint 13 12; mkPoint 12 12; mkPoint 11 12; mkPoint 10 12]).
    destruct (spawnFood_empty_cell rnd body Hrnd) as (f & Hf & Hin).
    { intros Hnil. assert (mkPoint 0 0 ∈ body) as H00.
      { apply emptyCells_nil_iff; [done|]. unfold inGrid, GRID_SIZE. simpl. lia. }
      revert H00. compute_done. }
    apply elem_of_emptyCells in Hin as [Hg Hn]. exists f.
    split; [|done].
    unfold stepGame. simpl.
    change (newHeadOf (mkPoint 12 12) right) with (mkPoint 13 12).
    fold body. by rewrite Hf.
Qed.

Lemma stepGame_moves_witness :
  ∃ r, stepGame (mkRandom 1 2) [mkPoint 12 12; mkPoint 11 12; mkPoint 10 12]
         up (mkPoint 13 12) = Some r ∧
       StepResult.isGameOver r = false ∧
       StepResult.ateFood r = false ∧
       StepResult.nextSnake r = [mkPoint 12 11; mkPoint 12 12; mkPoint 11 12] ∧
       StepResult.nextFood r = Some (mkPoint 13 12).
Proof.
  apply (proj1 stepGame_moves (mkRandom 1 2) (mkPoint 12 12)
           [mkPoint 11 12; mkPoint 10 12] up (mkPoint 13 12)).
  - unfold inGrid, GRID_SIZE. simpl. lia.
  - compute_done.
Defined.

(** C2.  For a snake with a head, [stepGame] reports game over exactly when
    the new head (the head plus the unit vector of the heading: up is
    [(0, -1)], right [(1, 0)], down [(0, 1)], left [(-1, 0)]) lies outside
    [[0, 24) x [0, 24)] or is a cell of the check set: the whole body when
    the new head is the food cell, the body without its last cell otherwise.
    Every game-over result hands back the given snake and the given food; so
    does the step to the left from [(0,12),(1,12),(2,12)]. *)
Theorem stepGame_game_over rnd head tail direction food :
  let snake := head :: tail in
  let newHead :=
    match direction with
    | up => mkPoint (x head) (y head - 1)
    | right => mkPoint (x head + 1) (y head)
    | down => mkPoint (x head) (y head + 1)
    | left => mkPoint (x head - 1) (y head)
    end in
  let outside :=
    x newHead < 0 ∨ 24 <= x newHead ∨ y newHead < 0 ∨ 24 <= y newHead in
  let checkSet :=
    if bool_decide (newHead = food) then snake else removelast snake in
  (∃ r, stepGame rnd snake direction food = Some r ∧
        (StepResult.isGameOver r = true ↔ outside ∨ newHead ∈ checkSet) ∧
        (StepResult.isGameOver r = true →
           StepResult.nextSnake r = snake ∧
           StepResult.nextFood r = Some food))
  ∧ stepGame rnd [mkPoint 0 12; mkPoint 1 12; mkPoint 2 12] left food
    = Some (StepResult.mk [mkPoint 0 12; mkPoint 1 12; mkPoint 2 12]
              (Some food) false true).
Proof.
  intros snake newHead outside checkSet. split; [|reflexivity].
  subst snake.
  assert (newHeadOf head direction = newHead) as Hnew.
  { unfold newHeadOf, newHead. destruct head as [hx hy].
    destruct direction; simpl; f_equal; lia. }
  assert (inGrid newHead ↔ ¬ outside) as Hboard.
  { unfold inGrid, outside, GRID_SIZE. lia. }
  assert (bodyToCheck (samePoint newHead food) (head :: tail) = checkSet)
    as Hcheck.
  { unfold bodyToCheck, checkSet. rewrite samePoint_bool_decide.
    destruct (bool_decide (newHead = food)); [done|].
    apply slice_0_m1_removelast. }
  destruct (decide (inGrid newHead)) as [Hg|Hg].
  - destruct (decide (newHead ∈ checkSet)) as [Hc|Hc].
    + eexists. split.
      * apply stepGame_body; rewrite Hnew; [done|by rewrite Hcheck].
      * cbn [StepResult.isGameOver StepResult.nextSnake StepResult.nextFood].
        split; [|done]. split; [by right|done].
    + eexists. split.
      * apply stepGame_free; rewrite Hnew; [done|by rewrite Hcheck].
      * cbn [StepResult.isGameOver StepResult.nextSnake StepResult.nextFood].
        split; [|done]. split; [done|]. intros [Ho|Hin]; [|done].
        by apply Hboard in Hg.
  - eexists. split.
    + apply stepGame_wall. by rewrite Hnew.
    + cbn [StepResult.isGameOver StepResult.nextSnake StepResult.nextFood].
      split; [|done]. split; [|done]. intros _. left.
      destruct (decide outside) as [|Hin]; [done|].
      by apply Hboard in Hin.
Qed.

(** C10.  Whenever [stepGame] reports game over it reports [ateFood = false],
    also when the new head is the food cell: with the food on the second
    segment and the snake turning back onto it, the step ends the game and
    nothing is eaten. *)
Theorem stepGame_game_over_not_eaten :
  (∀ rnd snake direction food r,
     stepGame rnd snake direction food = Some r →
     StepResult.isGameOver r = true → StepResult.ateFood r = false)
  ∧ (∀ rnd,
       let snake := [mkPoint 12 12; mkPoint 11 12; mkPoint 10 12] in
       let food := mkPoint 11 12 in
       newHeadOf (mkPoint 12 12) left = food ∧
       stepGame rnd snake left food
       = Some (StepResult.mk snake (Some food) false true)).
Proof.
  split.
  - intros rnd [|head tail] direction food r Hr Hover; [done|].
    unfold stepGame in Hr. simpl in Hr.
    repeat case_match; simplify_eq/=; done.
  - intros rnd. split; reflexivity.
Qed.

Lemma stepGame_game_over_not_eaten_witness :
  StepResult.ateFood
    (StepResult.mk [mkPoint 0 12; mkPoint 1 12; mkPoint 2 12]
       (Some (mkPoint 5 5)) false true) = false.
Proof.
  apply (proj1 stepGame_game_over_not_eaten (mkRandom 0 1)
           [mkPoint 0 12; mkPoint 1 12; mkPoint 2 12] left (mkPoint 5 5)).
  - reflexivity.
  - reflexivity.
Defined.

(** ** The page: invariants of the reachable states *)

Section Page.
Import HomePage.

Lemma createInitialSnake_NoDup : NoDup createInitialSnake.
Proof. apply (bool_decide_unpack _). by vm_compute. Qed.

Lemma onTimeout_Some_inv rnd st st' :
  onTimeout rnd st = Some st' →
  ∃ r f, stepGame rnd (snake st) (activeDirection st) (food st) = Some r ∧
         StepResult.nextFood r = Some f ∧
         st' = mkState (StepResult.nextSnake r) (activeDirection st) f
                 (if StepResult.ateFood r then score st + 1 else score st)
                 (isStarted st)
                 (if StepResult.isGameOver r then false else isPaused st)
                 (if StepResult.isGameOver r then true else isGameOver st)
                 (activeDirection st) None.
Proof.
  unfold onTimeout. intros H.
  destruct (stepGame _ _ _ _) as [r|] eqn:Hr; [|done]. simpl in H.
  destruct (StepResult.nextFood r) as [f|] eqn:Hf; [|done]. simpl in H.
  exists r, f. by simplify_eq.
Qed.

Lemma applyInputDirection_snake req st :
  snake (applyInputDirection req st) = snake st.
Proof. unfold applyInputDirection. by case_decide. Qed.

Lemma onKeyDown_snake key st : snake (onKeyDown key st) = snake st.
Proof.
  unfold onKeyDown. repeat case_match; try done.
  apply applyInputDirection_snake.
Qed.

Lemma resetGame_snake rnd st st' :
  resetGame rnd st = Some st' → snake st' = createInitialSnake.
Proof.
  unfold resetGame. destruct (spawnFood _ _); [|done]. by intros [= <-].
Qed.

(** One event keeps the body free of duplicates and with a head. *)
Lemma step_body_invariant st st' :
  step st st' →
  NoDup (snake st) ∧ snake st ≠ [] → NoDup (snake st') ∧ snake st' ≠ [].
Proof.
  intros Hstep [Hnd Hne]. destruct Hstep as
    [key st|rnd st st' _ _ Ht|rnd st st' _ Hs|st _|rnd st st' _ Hs].
  - by rewrite onKeyDown_snake.
  - apply onTimeout_Some_inv in Ht as (r & f & Hr & _ & ->). simpl.
    destruct (StepResult.isGameOver r) eqn:Hover.
    + apply stepGame_Some_inv in Hr as
        (head & tail & Hsn & [[-> _]|(-> & _ & _)]); [|done].
      done.
    + split; [by eapply stepGame_NoDup|].
      apply stepGame_length in Hr. intros Hnil. rewrite Hnil in Hr.
      destruct (snake st); [done|]. by destruct (StepResult.ateFood r).
  - unfold clickStart in Hs. destruct (isStarted st); simpl in Hs.
    + by simplify_eq.
    + destruct (resetGame rnd st) as [st1|] eqn:Hreset; [|done].
      apply resetGame_snake in Hreset. simplify_eq/=. rewrite Hreset.
      split; [apply createInitialSnake_NoDup|done].
  - done.
  - unfold clickRestart in Hs.
    destruct (resetGame rnd st) as [st1|] eqn:Hreset; [|done].
    apply resetGame_snake in Hreset. simplify_eq/=. rewrite Hreset.
    split; [apply createInitialSnake_NoDup|done].
Qed.

Lemma reachable_body_invariant st :
  reachable st → NoDup (snake st) ∧ snake st ≠ [].
Proof.
  induction 1 as [rnd st _ Hinit|st st' _ IH Hstep].
  - unfold initialState in Hinit. destruct (spawnFood _ _); [|done].
    simplify_eq/=. split; [apply createInitialSnake_NoDup|done].
  - by eapply step_body_invariant.
Qed.

(** The timeout callback always completes in a reachable state: the engine
    finds a head and hands back a food cell. *)
Lemma onTimeout_total rnd st :
  unit_interval rnd → snake st ≠ [] → is_Some (onTimeout rnd st).
Proof.
  intros Hrnd Hne. destruct (snake st) as [|head tail] eqn:Hsn; [done|].
  destruct (stepGame_returns_food rnd head tail (activeDirection st) (food st) Hrnd)
    as (r & f & Hr & Hf).
  unfold onTimeout. rewrite Hsn, Hr. simpl. rewrite Hf. simpl. by eexists.
Qed.

Lemma reachable_onTimeout_total rnd st :
  reachable st → unit_interval rnd → is_Some (onTimeout rnd st).
Proof.
  intros Hreach Hrnd. apply onTimeout_total; [done|].
  by apply reachable_body_invariant.
Qed.

Lemma reachable_mounted : reachable mounted.
Proof.
  apply (reachable_init (mkRandom 0 1)); [by vm_compute|].
  vm_compute. reflexivity.
Qed.

Lemma reachable_running : reachable running.
Proof.
  apply (reachable_step mounted); [apply reachable_mounted|].
  apply (step_start (mkRandom 0 1)); [by vm_compute|].
  vm_compute. reflexivity.
Qed.

(** C3.  In every reachable state of the page whose status is not game over
    the snake body has no duplicate cell; and a step of the engine from a
    body without duplicates that does not end the game returns a body
    without duplicates. *)
Theorem snake_body_NoDup :
  (∀ st, reachable st → isGameOver st = false → NoDup (snake st))
  ∧ (∀ rnd body direction food r,
       NoDup body →
       stepGame rnd body direction food = Some r →
       StepResult.isGameOver r = false →
       NoDup (StepResult.nextSnake r)).
Proof.
  split.
  - intros st Hreach _. by apply reachable_body_invariant.
  - intros rnd body direction food r. apply stepGame_NoDup.
Qed.

Lemma snake_body_NoDup_witness :
  NoDup (snake running)
  ∧ NoDup [mkPoint 12 11; mkPoint 12 12; mkPoint 11 12].
Proof.
  split.
  - apply (proj1 snake_body_NoDup running); [|reflexivity].
    apply reachable_running.
  - apply (proj2 snake_body_NoDup (mkRandom 1 2) createInitialSnake up
             (mkPoint 13 12)
             (StepResult.mk [mkPoint 12 11; mkPoint 12 12; mkPoint 11 12]
                (Some (mkPoint 13 12)) false false)).
    + apply (bool_decide_unpack _). by vm_compute.
    + reflexivity.
    + reflexivity.
Defined.

(** C8.  A step that stays on the board and misses the check set returns a
    body one cell longer when the food was eaten and of the same length when
    it was not; the length never decreases and is unchanged on game over.
    In the timeout callback a step that eats the food raises the score by
    exactly one (and the body by one cell); any other step leaves the score
    as it is. *)
Theorem step_length_and_score :
  (∀ rnd head tail direction food,
     let body := head :: tail in
     let newHead := newHeadOf head direction in
     ∃ r, stepGame rnd body direction food = Some r ∧
          (inGrid newHead →
           newHead ∉ bodyToCheck (bool_decide (newHead = food)) body →
           StepResult.ateFood r = bool_decide (newHead = food) ∧
           length (StepResult.nextSnake r)
           = if StepResult.ateFood r then S (length body) else length body) ∧
          (StepResult.isGameOver r = true →
           length (StepResult.nextSnake r) = length body) ∧
          (length body ≤ length (StepResult.nextSnake r))%nat)
  ∧ (∀ rnd st,
       unit_interval rnd → snake st ≠ [] →
       ∃ st' r,
         onTimeout rnd st = Some st' ∧
         stepGame rnd (snake st) (activeDirection st) (food st) = Some r ∧
         snake st' = StepResult.nextSnake r ∧
         score st' = (if StepResult.ateFood r then score st + 1
                      else score st) ∧
         (StepResult.ateFood r = true →
          score st' = score st + 1 ∧
          length (snake st') = S (length (snake st)))).
Proof.
  split.
  - intros rnd head tail direction food body newHead.
    destruct (stepGame_returns rnd head tail direction food)
      as [r Hr].
    exists r. split; [done|]. pose proof (stepGame_length _ _ _ _ _ Hr) as Hlen.
    split; [|split].
    + intros Hg Hc. split; [|done]. rewrite <-samePoint_bool_decide in *.
      rewrite stepGame_free in Hr by done. by simplify_eq.
    + intros Hover.
      apply stepGame_Some_inv in Hr as (h & t & _ & [[-> _]|(-> & _ & _)]);
        done.
    + rewrite Hlen. unfold body. destruct (StepResult.ateFood r); lia.
  - intros rnd st Hrnd Hne.
    destruct (onTimeout_total rnd st Hrnd Hne) as [st' Ht]. exists st'.
    pose proof Ht as Hinv.
    apply onTimeout_Some_inv in Hinv as (r & f & Hr & _ & ->).
    exists r. split; [done|]. split; [done|]. simpl.
    split; [done|]. split; [done|].
    intros Hate. apply stepGame_length in Hr. by rewrite Hate in *.
Qed.

Lemma step_length_and_score_witness :
  ∃ st', onTimeout (mkRandom 0 1)
           (mkState createInitialSnake right (mkPoint 13 12) 0
              true false false right None) = Some st' ∧
         score st' = 1 ∧ length (snake st') = 4%nat.
Proof.
  destruct (proj2 step_length_and_score (mkRandom 0 1)
              (mkState createInitialSnake right (mkPoint 13 12) 0
                 true false false right None))
    as (st' & r & Ht & Hr & _ & _ & Hate).
  - by vm_compute.
  - done.
  - exists st'. split; [exact Ht|].
    vm_compute in Hr. injection Hr as <-.
    apply Hate. reflexivity.
Defined.

End Page.

(** ** Speed scaling *)

(** C9.  For a score that is not negative, [getNextTick] is
    [max (80, 150 - floor (score / 5) * 8)]; it does not increase when the
    score increases, is never below [MIN_TICK_MS = 80], and is 134 at
    score 12. *)
Theorem getNextTick_spec score :
  0 <= score →
  getNextTick score = Z.max 80 (150 - (score / 5) * 8)
  ∧ (∀ score', score <= score' → getNextTick score' <= getNextTick score)
  ∧ MIN_TICK_MS <= getNextTick score
  ∧ MIN_TICK_MS = 80
  ∧ getNextTick 12 = 134.
Proof.
  intros Hscore. unfold getNextTick, MIN_TICK_MS, BASE_TICK_MS,
    SPEEDUP_EVERY_POINTS, SPEEDUP_STEP_MS.
  repeat split; try lia.
  intros score' Hle.
  pose proof (Z.div_le_mono score score' 5 ltac:(lia) Hle). lia.
Qed.

Lemma getNextTick_spec_witness :
  getNextTick 12 = Z.max 80 (150 - (12 / 5) * 8)
  ∧ (∀ score', 12 <= score' → getNextTick score' <= getNextTick 12)
  ∧ MIN_TICK_MS <= getNextTick 12
  ∧ MIN_TICK_MS = 80
  ∧ getNextTick 12 = 134.
Proof. apply (getNextTick_spec 12). lia. Defined.

(** ** Food spawner *)

(** C7.  When some board cell is not a cell of the snake, [spawnFood]
    returns a board cell that is not a cell of the snake; when the snake
    covers every board cell it returns the head [snake[0]]. *)
Theorem spawnFood_spec rnd snake :
  unit_interval rnd →
  ((∃ c, inGrid c ∧ c ∉ snake) →
   ∃ f, spawnFood rnd snake = Some f ∧ inGrid f ∧ f ∉ snake)
  ∧ ((∀ c, inGrid c → c ∈ snake) →
     ∃ head, snake !! 0%nat = Some head ∧ spawnFood rnd snake = Some head).
Proof.
  intros Hrnd. split.
  - intros (c & Hg & Hc).
    destruct (spawnFood_empty_cell rnd snake Hrnd) as (f & Hf & Hin).
    { intros Hnil. destruct Hc. by apply emptyCells_nil_iff. }
    apply elem_of_emptyCells in Hin. by exists f.
  - intros Hfull. apply emptyCells_nil_iff in Hfull.
    rewrite spawnFood_full_board by done.
    destruct (spawnFood_is_Some rnd snake Hrnd) as [head Hhead].
    rewrite spawnFood_full_board in Hhead by done. by exists head.
Qed.

Lemma spawnFood_spec_witness :
  (∃ f, spawnFood (mkRandom 1 2) createInitialSnake = Some f ∧
        inGrid f ∧ f ∉ createInitialSnake)
  ∧ (∃ head, grid_cells !! 0%nat = Some head ∧
             spawnFood (mkRandom 1 2) grid_cells = Some head).
Proof.
  assert (unit_interval (mkRandom 1 2)) as Hrnd by (by vm_compute).
  split.
  - apply (proj1 (spawnFood_spec (mkRandom 1 2) createInitialSnake Hrnd)).
    exists (mkPoint 0 0). split; [by vm_compute|compute_done].
  - apply (proj2 (spawnFood_spec (mkRandom 1 2) grid_cells Hrnd)).
    intros c Hc. by apply elem_of_grid_cells.
Defined.

(** ** Direction resolver *)

Lemma resolveDirectionInput_lower key key' currentDirection :
  toLowerCase key = toLowerCase key' →
  resolveDirectionInput key currentDirection
  = resolveDirectionInput key' currentDirection.
Proof. intros H. unfold resolveDirectionInput. by rewrite H. Qed.

(** C6.  [resolveDirectionInput] maps the four arrow keys, whatever the case
    of their letters, to the absolute headings, [w] to the current heading,
    [a] to its left turn and [d] to its right turn, and every other key to
    no heading.  The left turn is the cycle up, left, down, right, up and the
    right turn is the reverse cycle.  The result depends on the two
    arguments only. *)
Theorem resolveDirectionInput_spec key currentDirection :
  (sameKey key "ArrowUp" →
   resolveDirectionInput key currentDirection = Some up)
  ∧ (sameKey key "ArrowRight" →
     resolveDirectionInput key currentDirection = Some right)
  ∧ (sameKey key "ArrowDown" →
     resolveDirectionInput key currentDirection = Some down)
  ∧ (sameKey key "ArrowLeft" →
     resolveDirectionInput key currentDirection = Some left)
  ∧ (sameKey key "w" →
     resolveDirectionInput key currentDirection = Some currentDirection)
  ∧ (sameKey key "a" →
     resolveDirectionInput key currentDirection
     = Some (LEFT_TURN currentDirection))
  ∧ (sameKey key "d" →
     resolveDirectionInput key currentDirection
     = Some (RIGHT_TURN currentDirection))
  ∧ (¬ (sameKey key "ArrowUp" ∨ sameKey key "ArrowRight"
        ∨ sameKey key "ArrowDown" ∨ sameKey key "ArrowLeft"
        ∨ sameKey key "w" ∨ sameKey key "a" ∨ sameKey key "d") →
     resolveDirectionInput key currentDirection = None)
  ∧ (LEFT_TURN up = left ∧ LEFT_TURN left = down
     ∧ LEFT_TURN down = right ∧ LEFT_TURN right = up)
  ∧ (RIGHT_TURN left = up ∧ RIGHT_TURN down = left
     ∧ RIGHT_TURN right = down ∧ RIGHT_TURN up = right)
  ∧ (∀ d, RIGHT_TURN (LEFT_TURN d) = d ∧ LEFT_TURN (RIGHT_TURN d) = d).
Proof.
  repeat apply conj;
    try (intros H%sameKey_lower;
         by rewrite (resolveDirectionInput_lower _ _ _ H)).
  - rewrite !sameKey_lower. simpl. intros Hnone.
    unfold resolveDirectionInput. simpl.
    repeat (case_match;
            [match goal with
             | H : String.eqb _ _ = true |- _ =>
                 apply String.eqb_eq in H; tauto
             end|]).
    done.
  - done.
  - done.
  - done.
  - done.
  - done.
  - done.
  - done.
  - done.
  - by intros [].
Qed.

Lemma resolveDirectionInput_spec_witness :
  resolveDirectionInput "ARROWUP" down = Some up
  ∧ resolveDirectionInput "A" down = Some right
  ∧ resolveDirectionInput "Enter" down = None.
Proof.
  split; [|split].
  - apply (resolveDirectionInput_spec "ARROWUP" down). compute_done.
  - apply (proj1 (proj2 (proj2 (proj2 (proj2 (proj2
             (resolveDirectionInput_spec "A" down))))))). compute_done.
  - apply (proj1 (proj2 (proj2 (proj2 (proj2 (proj2 (proj2 (proj2
             (resolveDirectionInput_spec "Enter" down))))))))).
    compute_done.
Defined.

(** ** The heading queue *)

Section Headings.
Import HomePage.

Lemma OPPOSITE_DIRECTION_neq d : d ≠ OPPOSITE_DIRECTION d.
Proof. by destruct d. Qed.

Lemma LEFT_TURN_not_opposite d : LEFT_TURN d ≠ OPPOSITE_DIRECTION d.
Proof. by destruct d. Qed.

Lemma RIGHT_TURN_not_opposite d : RIGHT_TURN d ≠ OPPOSITE_DIRECTION d.
Proof. by destruct d. Qed.

Lemma onTimeout_directionRef rnd st st' :
  onTimeout rnd st = Some st' → directionRef st' = activeDirection st.
Proof.
  intros H. by apply onTimeout_Some_inv in H as (r & f & _ & _ & ->).
Qed.

Lemma applyInputDirection_directionRef requested st :
  directionRef (applyInputDirection requested st) = directionRef st.
Proof. unfold applyInputDirection. by case_decide. Qed.

(** The active heading after a request is the request or the one before. *)
Lemma applyInputDirection_active requested st :
  activeDirection (applyInputDirection requested st) = activeDirection st
  ∨ (activeDirection (applyInputDirection requested st) = requested
     ∧ requested ≠ OPPOSITE_DIRECTION (activeDirection st)).
Proof.
  unfold applyInputDirection. case_decide; [by left|by right].
Qed.

Lemma onKeyDown_directionRef key st :
  directionRef (onKeyDown key st) = directionRef st.
Proof.
  unfold onKeyDown. repeat case_match; try done.
  apply applyInputDirection_directionRef.
Qed.

(** A key leaves the active heading alone or makes it the heading that
    the resolver returns for the key, accepted by the guard. *)
Lemma onKeyDown_active key st :
  activeDirection (onKeyDown key st) = activeDirection st
  ∨ ∃ mapped,
      resolveDirectionInput key (directionRef st) = Some mapped ∧
      activeDirection (onKeyDown key st) = mapped ∧
      mapped ≠ OPPOSITE_DIRECTION (activeDirection st).
Proof.
  unfold onKeyDown. repeat case_match; try by left.
  destruct (applyInputDirection_active d st) as [?|[? ?]]; [by left|].
  right. by exists d.
Qed.

Lemma resolveDirectionInput_relative key currentDirection mapped :
  relativeKey key →
  resolveDirectionInput key currentDirection = Some mapped →
  mapped ≠ OPPOSITE_DIRECTION currentDirection.
Proof.
  intros [H|[H|H]]; apply sameKey_lower in H;
    rewrite (resolveDirectionInput_lower _ _ _ H); intros [= <-].
  - apply OPPOSITE_DIRECTION_neq.
  - apply LEFT_TURN_not_opposite.
  - apply RIGHT_TURN_not_opposite.
Qed.

Lemma pressAll_relative keys st :
  Forall relativeKey keys →
  activeDirection st ≠ OPPOSITE_DIRECTION (directionRef st) →
  directionRef (pressAll keys st) = directionRef st
  ∧ activeDirection (pressAll keys st) ≠ OPPOSITE_DIRECTION (directionRef st).
Proof.
  intros Hkeys. revert st.
  induction Hkeys as [|key keys Hkey _ IH]; intros st Hst; [done|].
  unfold pressAll in *. simpl.
  destruct (IH (onKeyDown key st)) as [Href Hact].
  - rewrite onKeyDown_directionRef.
    destruct (onKeyDown_active key st) as [->|(mapped & Hm & -> & _)];
      [done|].
    by eapply resolveDirectionInput_relative.
  - rewrite onKeyDown_directionRef in Href, Hact. by rewrite Href.
Qed.

(** C5.  [applyInputDirection] compares the request with the pending heading
    when one is queued and with the committed heading otherwise.  A request
    that is the opposite of that heading is dropped and nothing changes; any
    other request becomes the pending heading, in place of the one that was
    pending, and nothing else changes: the queue holds at most one heading. *)
Theorem applyInputDirection_spec requested st :
  let compared :=
    match pendingDirectionRef st with
    | Some pending => pending
    | None => directionRef st
    end in
  (requested = OPPOSITE_DIRECTION compared →
   applyInputDirection requested st = st)
  ∧ (requested ≠ OPPOSITE_DIRECTION compared →
     applyInputDirection requested st
     = mkState (snake st) (direction st) (food st) (score st)
         (isStarted st) (isPaused st) (isGameOver st)
         (directionRef st) (Some requested)).
Proof.
  intros compared.
  assert (compared = activeDirection st) as ->.
  { unfold compared, activeDirection. by destruct (pendingDirectionRef st). }
  unfold applyInputDirection. by case_decide.
Qed.

Lemma applyInputDirection_spec_witness :
  applyInputDirection left running = running
  ∧ pendingDirectionRef
      (applyInputDirection down (applyInputDirection up running))
    = Some up
  ∧ pendingDirectionRef
      (applyInputDirection left (applyInputDirection up running))
    = Some left.
Proof.
  split; [|split].
  - apply (proj1 (applyInputDirection_spec left running)). reflexivity.
  - rewrite (proj1 (applyInputDirection_spec down
                      (applyInputDirection up running))); reflexivity.
  - rewrite (proj2 (applyInputDirection_spec left
                      (applyInputDirection up running))); [reflexivity|].
    compute_done.
Defined.

(** C4.  The committed heading can reverse in one tick: the guard compares
    a request with the pending heading when one is queued, not with the
    committed one.  In a started game heading right, with nothing pending,
    the keys ArrowUp and ArrowLeft before the next timeout are both accepted
    (left is not the opposite of the pending up); the timeout commits left,
    the opposite of the committed right, and the snake runs into its second
    cell: the game is over. *)
Lemma committed_heading_reverses :
  reachable running
  ∧ directionRef running = right
  ∧ pendingDirectionRef running = None
  ∧ pressAll ["ArrowUp"; "ArrowLeft"] running = queueAll [up; left] running
  ∧ onTimeout (mkRandom 0 1) (pressAll ["ArrowUp"; "ArrowLeft"] running)
    = Some (mkState createInitialSnake left (mkPoint 0 0) 0
              true false true left None)
  ∧ left = OPPOSITE_DIRECTION (directionRef running).
Proof.
  split; [apply reachable_running|].
  repeat split; vm_compute; reflexivity.
Qed.

(** What the guard does ensure.  A timeout commits the active heading (the
    pending one if a heading is queued, else the committed one) and leaves
    no heading pending.  From a state with no heading pending, the heading
    that the next timeout commits is not the opposite of the committed one
    when at most one key is pressed in between, or when all the keys pressed
    are relative turns ([w], [a], [d]).  For a longer run of keys the guard
    ensures only that each accepted request is not the opposite of the
    heading that was active when it arrived. *)
Theorem committed_heading_guard :
  (∀ st keys,
     pendingDirectionRef st = None →
     (length keys ≤ 1)%nat ∨ Forall relativeKey keys →
     activeDirection (pressAll keys st)
     ≠ OPPOSITE_DIRECTION (directionRef st))
  ∧ (∀ rnd st,
       unit_interval rnd → snake st ≠ [] →
       ∃ st', onTimeout rnd st = Some st' ∧
              directionRef st' = activeDirection st ∧
              pendingDirectionRef st' = None)
  ∧ (∀ st key,
       activeDirection (onKeyDown key st) = activeDirection st
       ∨ activeDirection (onKeyDown key st)
         ≠ OPPOSITE_DIRECTION (activeDirection st)).
Proof.
  split; [|split].
  - intros st keys Hpending Hkeys.
    assert (activeDirection st = directionRef st) as Hactive.
    { unfold activeDirection. by rewrite Hpending. }
    destruct Hkeys as [Hlen|Hrel].
    + destruct keys as [|key [|key' keys]]; simpl in Hlen; [| |lia].
      * simpl. rewrite Hactive. apply OPPOSITE_DIRECTION_neq.
      * unfold pressAll. simpl.
        destruct (onKeyDown_active key st) as [->|(mapped & _ & -> & Hm)].
        -- rewrite Hactive. apply OPPOSITE_DIRECTION_neq.
        -- by rewrite <-Hactive.
    + apply pressAll_relative; [done|].
      rewrite Hactive. apply OPPOSITE_DIRECTION_neq.
  - intros rnd st Hrnd Hne.
    destruct (onTimeout_total rnd st Hrnd Hne) as [st' Ht]. exists st'.
    split; [done|].
    by apply onTimeout_Some_inv in Ht as (r & f & _ & _ & ->).
  - intros st key.
    destruct (onKeyDown_active key st) as [?|(mapped & _ & -> & Hm)];
      [by left|by right].
Qed.

Lemma committed_heading_guard_witness :
  activeDirection (pressAll ["a"; "W"; "d"; "A"] running)
  ≠ OPPOSITE_DIRECTION (directionRef running)
  ∧ activeDirection (pressAll ["ArrowLeft"] running)
    ≠ OPPOSITE_DIRECTION (directionRef running)
  ∧ (∃ st', onTimeout (mkRandom 0 1)
              (pressAll ["a"; "W"; "d"; "A"] running) = Some st' ∧
            directionRef st'
            = activeDirection (pressAll ["a"; "W"; "d"; "A"] running) ∧
            pendingDirectionRef st' = None).
Proof.
  split; [|split].
  - apply (proj1 committed_heading_guard running ["a"; "W"; "d"; "A"]).
    + reflexivity.
    + right. repeat constructor; compute_done.
  - apply (proj1 committed_heading_guard running ["ArrowLeft"]).
    + reflexivity.
    + left. simpl. lia.
  - apply (proj1 (proj2 committed_heading_guard) (mkRandom 0 1)).
    + by vm_compute.
    + done.
Defined.

End Headings.

(** * Further properties of the code *)

(** ** Keys, tables and speed *)

(** X1.  [pointKey] tells cells apart: two cells have the same key exactly
    when they are the same cell, whatever their coordinates (negative ones
    included). *)
Theorem pointKey_injective p q : pointKey p = pointKey q ↔ p = q.
Proof. split; [apply pointKey_inj|by intros ->]. Qed.

(** X2.  The four tables agree with each other: the opposite is an
    involution and is two left turns as well as two right turns, four left
    turns come back, the unit vector of the opposite heading is the negated
    vector, a left turn maps the vector [(x, y)] to [(y, -x)] and a right
    turn to [(-y, x)], every vector is one orthogonal step, and a step
    followed by a step in the opposite heading returns to the same cell. *)
Theorem direction_tables d :
  OPPOSITE_DIRECTION (OPPOSITE_DIRECTION d) = d
  ∧ LEFT_TURN (LEFT_TURN d) = OPPOSITE_DIRECTION d
  ∧ RIGHT_TURN (RIGHT_TURN d) = OPPOSITE_DIRECTION d
  ∧ LEFT_TURN (LEFT_TURN (LEFT_TURN (LEFT_TURN d))) = d
  ∧ DIRECTION_VECTORS (OPPOSITE_DIRECTION d)
    = mkPoint (- x (DIRECTION_VECTORS d)) (- y (DIRECTION_VECTORS d))
  ∧ DIRECTION_VECTORS (LEFT_TURN d)
    = mkPoint (y (DIRECTION_VECTORS d)) (- x (DIRECTION_VECTORS d))
  ∧ DIRECTION_VECTORS (RIGHT_TURN d)
    = mkPoint (- y (DIRECTION_VECTORS d)) (x (DIRECTION_VECTORS d))
  ∧ Z.abs (x (DIRECTION_VECTORS d)) + Z.abs (y (DIRECTION_VECTORS d)) = 1
  ∧ (∀ p, newHeadOf (newHeadOf p d) (OPPOSITE_DIRECTION d) = p)
  ∧ (∀ p, adjacent (newHeadOf p d) p).
Proof.
  repeat split; try (by destruct d).
  - intros [px py]. destruct d; unfold newHeadOf; simpl; f_equal; lia.
  - intros [px py]. destruct d; unfold adjacent, newHeadOf; simpl; lia.
Qed.

(** X3.  The tick interval for the scores from [-2^50] up, where the
    arithmetic of the code on doubles is exact: it is 80 exactly from score
    45 on, it is at most 150 exactly for the scores that are not negative,
    below 45 it is [150 - 8 * floor (score / 5)], and it is the same for all
    the scores of one level of five points. *)
Theorem getNextTick_levels score :
  - 2 ^ 50 <= score →
  (getNextTick score = MIN_TICK_MS ↔ 45 <= score)
  ∧ (getNextTick score <= BASE_TICK_MS ↔ 0 <= score)
  ∧ (score < 45 → getNextTick score = 150 - 8 * (score / 5))
  ∧ getNextTick (5 * (score / 5)) = getNextTick score.
Proof.
  intros _.
  unfold getNextTick, MIN_TICK_MS, BASE_TICK_MS, SPEEDUP_EVERY_POINTS,
    SPEEDUP_STEP_MS.
  rewrite (Z.mul_comm 5 (score / 5)), Z.div_mul by lia.
  pose proof (Z.div_mod score 5 ltac:(lia)) as Hdm.
  pose proof (Z.mod_pos_bound score 5 ltac:(lia)) as Hm.
  repeat split; lia.
Qed.

Lemma getNextTick_levels_witness :
  getNextTick 44 = 150 - 8 * (44 / 5)
  ∧ getNextTick 45 = MIN_TICK_MS
  ∧ getNextTick (-1) = 150 - 8 * (-1 / 5).
Proof.
  split; [|split].
  - apply (proj1 (proj2 (proj2 (getNextTick_levels 44 ltac:(lia))))). lia.
  - apply (proj1 (getNextTick_levels 45 ltac:(lia))). lia.
  - apply (proj1 (proj2 (proj2 (getNextTick_levels (-1) ltac:(lia))))). lia.
Defined.

(** ** Step engine *)

(** X4.  The draw of [Math.random] matters only for the new food of a step
    that eats: the next snake and the two flags never depend on it, and a
    result that reports no food eaten is the result for every draw. *)
Theorem stepGame_random_only_for_food rnd rnd' snake direction food :
  StepResult.nextSnake <$> stepGame rnd snake direction food
  = StepResult.nextSnake <$> stepGame rnd' snake direction food
  ∧ StepResult.ateFood <$> stepGame rnd snake direction food
    = StepResult.ateFood <$> stepGame rnd' snake direction food
  ∧ StepResult.isGameOver <$> stepGame rnd snake direction food
    = StepResult.isGameOver <$> stepGame rnd' snake direction food
  ∧ (∀ r, stepGame rnd snake direction food = Some r →
          StepResult.ateFood r = false →
          stepGame rnd' snake direction food = Some r).
Proof.
  destruct snake as [|head tail]; [done|].
  unfold stepGame. simpl.
  repeat case_match; simpl; repeat split; try done;
    try (intros r [= <-]; simpl; done).
Qed.

Lemma stepGame_random_only_for_food_witness :
  stepGame (mkRandom 5 7) createInitialSnake up (mkPoint 3 3)
  = Some (StepResult.mk [mkPoint 12 11; mkPoint 12 12; mkPoint 11 12]
            (Some (mkPoint 3 3)) false false).
Proof.
  apply (proj2 (proj2 (proj2 (stepGame_random_only_for_food
           (mkRandom 0 1) (mkRandom 5 7) createInitialSnake up
           (mkPoint 3 3)))));
    reflexivity.
Defined.

(** X5.  In a step that does not end the game the body follows the head:
    the new first cell is the old head moved by one orthogonal step, and
    every later cell of the new body is the cell that was one place nearer
    to the head. *)
Theorem stepGame_body_follows rnd snake direction food r :
  stepGame rnd snake direction food = Some r →
  StepResult.isGameOver r = false →
  ∃ head,
    snake !! 0%nat = Some head ∧
    StepResult.nextSnake r !! 0%nat = Some (newHeadOf head direction) ∧
    adjacent (newHeadOf head direction) head ∧
    (∀ i, (S i < length (StepResult.nextSnake r))%nat →
          StepResult.nextSnake r !! S i = snake !! i).
Proof.
  intros Hr Hlive.
  apply stepGame_Some_inv in Hr as (head & tail & -> & [[-> _]|(-> & _ & _)]);
    [done|].
  exists head. split; [done|]. simpl.
  split; [by destruct (samePoint _ food)|]. split.
  { destruct head as [hx hy].
    destruct direction; unfold adjacent, newHeadOf; simpl; lia. }
  intros i Hi. destruct (samePoint _ food); simpl in *; [done|].
  rewrite length_slice_0_m1 in Hi. simpl in Hi.
  unfold slice_0_m1. rewrite lookup_take_lt; [done|simpl; lia].
Qed.

Lemma stepGame_body_follows_witness :
  ∃ head,
    createInitialSnake !! 0%nat = Some head ∧
    [mkPoint 12 11; mkPoint 12 12; mkPoint 11 12] !! 0%nat
    = Some (newHeadOf head up) ∧
    adjacent (newHeadOf head up) head ∧
    (∀ i, (S i < length [mkPoint 12 11; mkPoint 12 12; mkPoint 11 12])%nat →
          [mkPoint 12 11; mkPoint 12 12; mkPoint 11 12] !! S i
          = createInitialSnake !! i).
Proof.
  apply (stepGame_body_follows (mkRandom 0 1) createInitialSnake up
           (mkPoint 3 3)
           (StepResult.mk [mkPoint 12 11; mkPoint 12 12; mkPoint 11 12]
              (Some (mkPoint 3 3)) false false));
    reflexivity.
Defined.

(** X6.  Moving onto the tail cell.  When the new head is the last cell of a
    body without duplicates and lies on the board, a step that does not eat
    is legal: the tail leaves the cell as the head enters it, the food stays
    and the new body occupies the same cells.  When that cell also holds the
    food the tail stays, and the step ends the game. *)
Theorem stepGame_into_tail rnd head tail direction food :
  let snake := head :: tail in
  let newHead := newHeadOf head direction in
  NoDup snake → last snake = Some newHead → inGrid newHead →
  (newHead ≠ food →
   stepGame rnd snake direction food
   = Some (StepResult.mk (newHead :: removelast snake) (Some food)
             false false)
   ∧ newHead :: removelast snake ≡ₚ snake)
  ∧ (newHead = food →
     stepGame rnd snake direction food
     = Some (StepResult.mk snake (Some food) false true)).
Proof.
  intros snake newHead Hnd Hlast Hg.
  pose proof Hlast as Hsplit. apply last_Some in Hsplit as [front Hfront].
  assert (slice_0_m1 snake = front) as Hslice.
  { rewrite slice_0_m1_removelast, Hfront. apply removelast_last. }
  assert (newHead ∉ front) as Hfresh.
  { rewrite Hfront in Hnd. apply NoDup_app in Hnd as (_ & Hdisj & _).
    intros Hin. apply (Hdisj _ Hin). left. }
  split.
  - intros Hfood.
    assert (samePoint newHead food = false) as Hate.
    { rewrite samePoint_bool_decide. by apply bool_decide_eq_false. }
    split.
    + unfold snake, newHead.
      rewrite stepGame_free; fold snake newHead; [| done |].
      * rewrite Hate. rewrite pop_cons by done.
        by rewrite slice_0_m1_removelast.
      * rewrite Hate. unfold bodyToCheck. by rewrite Hslice.
    + rewrite <-slice_0_m1_removelast, Hslice, Hfront.
      apply Permutation_cons_append.
  - intros Hfood.
    assert (samePoint newHead food = true) as Hate
      by by apply samePoint_true.
    apply stepGame_body; fold newHead; [done|].
    rewrite Hate. unfold bodyToCheck. fold snake. rewrite Hfront.
    apply elem_of_app. right. left.
Qed.

Lemma stepGame_into_tail_witness :
  stepGame (mkRandom 0 1)
    [mkPoint 0 0; mkPoint 1 0; mkPoint 1 1; mkPoint 0 1] down (mkPoint 5 5)
  = Some (StepResult.mk
            (mkPoint 0 1 :: removelast
               [mkPoint 0 0; mkPoint 1 0; mkPoint 1 1; mkPoint 0 1])
            (Some (mkPoint 5 5)) false false)
  ∧ mkPoint 0 1 :: removelast
      [mkPoint 0 0; mkPoint 1 0; mkPoint 1 1; mkPoint 0 1]
    ≡ₚ [mkPoint 0 0; mkPoint 1 0; mkPoint 1 1; mkPoint 0 1].
Proof.
  apply (proj1 (stepGame_into_tail (mkRandom 0 1) (mkPoint 0 0)
                  [mkPoint 1 0; mkPoint 1 1; mkPoint 0 1] down (mkPoint 5 5)
                  ltac:(apply (bool_decide_unpack _); by vm_compute)
                  eq_refl
                  ltac:(by vm_compute))).
  compute_done.
Defined.

(** X7.  Turning back onto the second cell.  When the heading leads from
    the head to the second cell of the body, the step ends the game for
    every body of three cells or more, and also when that cell holds the
    food or lies off the board.  A body of two cells that does not eat is
    not stopped: the two cells swap. *)
Theorem stepGame_into_neck rnd head neck rest direction food :
  newHeadOf head direction = neck →
  (rest ≠ [] ∨ neck = food ∨ ¬ inGrid neck →
   stepGame rnd (head :: neck :: rest) direction food
   = Some (StepResult.mk (head :: neck :: rest) (Some food) false true))
  ∧ (rest = [] → neck ≠ food → inGrid neck →
     stepGame rnd [head; neck] direction food
     = Some (StepResult.mk [neck; head] (Some food) false false)).
Proof.
  intros Hneck. split.
  - intros Hcase. destruct (decide (inGrid neck)) as [Hg|Hg].
    + apply stepGame_body; rewrite Hneck; [done|].
      unfold bodyToCheck. destruct (samePoint neck food) eqn:Hate.
      * right. left.
      * destruct Hcase as [Hrest|[Hfood|?]]; [| |done].
        -- rewrite slice_0_m1_removelast. destruct rest; [done|].
           right. left.
        -- apply samePoint_true in Hfood. congruence.
    + apply stepGame_wall. by rewrite Hneck.
  - intros -> Hfood Hg.
    assert (samePoint neck food = false) as Hate.
    { rewrite samePoint_bool_decide. by apply bool_decide_eq_false. }
    rewrite stepGame_free; rewrite Hneck; [| done |].
    + by rewrite Hate.
    + rewrite Hate. unfold bodyToCheck, slice_0_m1. simpl.
      apply not_elem_of_cons. split; [|apply not_elem_of_nil].
      rewrite <-Hneck. destruct head as [hx hy].
      destruct direction; unfold newHeadOf; simpl; intros [=]; lia.
Qed.

Lemma stepGame_into_neck_witness :
  stepGame (mkRandom 0 1) createInitialSnake left (mkPoint 3 3)
  = Some (StepResult.mk createInitialSnake (Some (mkPoint 3 3)) false true)
  ∧ stepGame (mkRandom 0 1) [mkPoint 12 12; mkPoint 11 12] left (mkPoint 3 3)
    = Some (StepResult.mk [mkPoint 11 12; mkPoint 12 12]
              (Some (mkPoint 3 3)) false false).
Proof.
  split.
  - apply (proj1 (stepGame_into_neck (mkRandom 0 1) (mkPoint 12 12)
                    (mkPoint 11 12) [mkPoint 10 12] left (mkPoint 3 3)
                    eq_refl)).
    by left.
  - apply (proj2 (stepGame_into_neck (mkRandom 0 1) (mkPoint 12 12)
                    (mkPoint 11 12) [] left (mkPoint 3 3) eq_refl));
      [done|done|by vm_compute].
Defined.

(** ** Food spawner *)

Lemma grid_cells_row_major :
  grid_cells
  = (λ k, mkPoint (k `mod` GRID_SIZE) (k / GRID_SIZE))
      <$> seqZ 0 (GRID_SIZE * GRID_SIZE).
Proof. vm_compute. reflexivity. Qed.

Lemma NoDup_grid_cells : NoDup grid_cells.
Proof. apply (bool_decide_unpack _). by vm_compute. Qed.

Lemma emptyCells_filter snake :
  emptyCells snake = filter (λ c, c ∉ snake) grid_cells.
Proof.
  unfold emptyCells. apply list_filter_iff. intros c.
  by rewrite elem_of_occupied_keys.
Qed.

(** X8.  The board is enumerated row by row: it has 576 cells, none twice,
    and the cell at index [k] is [(k mod 24, floor (k / 24))].  For the empty
    array, where every cell is free, [spawnFood] never returns [undefined]:
    for every draw it returns the board cell at some index below 576. *)
Theorem spawnFood_empty_snake rnd :
  unit_interval rnd →
  length grid_cells = 576%nat
  ∧ NoDup grid_cells
  ∧ (∀ k : nat, (k < 576)%nat →
       grid_cells !! k = Some (mkPoint (Z.of_nat k `mod` 24) (Z.of_nat k / 24)))
  ∧ (∃ k : nat, (k < 576)%nat ∧
       spawnFood rnd []
       = Some (mkPoint (Z.of_nat k `mod` 24) (Z.of_nat k / 24))).
Proof.
  intros Hrnd.
  assert (∀ k : nat, (k < 576)%nat →
            grid_cells !! k
            = Some (mkPoint (Z.of_nat k `mod` 24) (Z.of_nat k / 24))) as Hk.
  { intros k Hlt. rewrite grid_cells_row_major, list_lookup_fmap.
    rewrite lookup_seqZ_lt by (unfold GRID_SIZE; lia). done. }
  split; [reflexivity|]. split; [apply NoDup_grid_cells|]. split; [done|].
  pose proof (random_index_lt rnd 576 Hrnd ltac:(lia)) as Hlt.
  exists (random_index rnd 576). split; [done|].
  unfold spawnFood. simpl.
  assert (emptyCells [] = grid_cells) as -> by (vm_compute; reflexivity).
  case_decide as Hlen; [done|].
  change (length grid_cells) with 576%nat. by apply Hk.
Qed.

Lemma spawnFood_empty_snake_witness :
  ∃ k : nat, (k < 576)%nat ∧
    spawnFood (mkRandom 1 2) []
    = Some (mkPoint (Z.of_nat k `mod` 24) (Z.of_nat k / 24)).
Proof.
  apply (spawnFood_empty_snake (mkRandom 1 2)). by vm_compute.
Defined.

(** X9.  The free cells are the board cells that are not cells of the
    snake, in board order: the set of string keys decides membership
    exactly, so the order of the segments, repeated segments and segments
    off the board make no difference.  There are never duplicates among
    them, and for a snake without duplicates that lies on the board their
    number is 576 less the length of the snake. *)
Theorem emptyCells_count snake :
  emptyCells snake = filter (λ c, c ∉ snake) grid_cells
  ∧ NoDup (emptyCells snake)
  ∧ (length (emptyCells snake) ≤ 576)%nat
  ∧ (NoDup snake → Forall inGrid snake →
     (length (emptyCells snake) + length snake = 576)%nat).
Proof.
  split; [apply emptyCells_filter|].
  rewrite emptyCells_filter.
  split; [apply NoDup_filter, NoDup_grid_cells|].
  split; [apply (length_filter _ grid_cells)|].
  intros Hnd Hgrid.
  pose proof (filter_app_complement (λ c, c ∉ snake) grid_cells) as Hperm.
  apply Permutation_length in Hperm. rewrite length_app in Hperm.
  change (length grid_cells) with 576%nat in Hperm.
  assert (filter (λ c, ¬ (c ∉ snake)) grid_cells ≡ₚ snake) as Hocc.
  { apply NoDup_Permutation; [apply NoDup_filter, NoDup_grid_cells|done|].
    intros c. rewrite list_elem_of_filter, elem_of_grid_cells. split.
    - intros [Hin _]. by apply dec_stable.
    - intros Hin. split; [tauto|].
      rewrite Forall_forall in Hgrid. by apply Hgrid. }
  apply Permutation_length in Hocc. lia.
Qed.

Lemma emptyCells_count_witness :
  (length (emptyCells createInitialSnake) + length createInitialSnake
   = 576)%nat.
Proof.
  apply (proj2 (proj2 (proj2 (emptyCells_count createInitialSnake)))).
  - apply (bool_decide_unpack _). by vm_compute.
  - repeat constructor; by vm_compute.
Defined.

(** X10.  Every free board cell can be the new food: for each board cell
    that is not a cell of the snake some draw of [Math.random] in [[0, 1)]
    makes [spawnFood] return it; and the draw 0 returns the first free cell
    in board order. *)
Theorem spawnFood_onto snake c :
  inGrid c → c ∉ snake →
  (∃ rnd, unit_interval rnd ∧ spawnFood rnd snake = Some c)
  ∧ (∀ den, 0 < den →
       spawnFood (mkRandom 0 den) snake = emptyCells snake !! 0%nat).
Proof.
  intros Hg Hc.
  assert (c ∈ emptyCells snake) as Hin by by apply elem_of_emptyCells.
  split; [by apply spawnFood_any_empty_cell|].
  intros den Hden. unfold spawnFood. simpl.
  case_decide as Hlen.
  - destruct (emptyCells snake); [by apply elem_of_nil in Hin|done].
  - unfold random_index. simpl. by rewrite Z.div_0_l by lia.
Qed.

Lemma spawnFood_onto_witness :
  (∃ rnd, unit_interval rnd ∧
          spawnFood rnd createInitialSnake = Some (mkPoint 23 23))
  ∧ (∀ den, 0 < den →
       spawnFood (mkRandom 0 den) createInitialSnake
       = emptyCells createInitialSnake !! 0%nat).
Proof.
  apply (spawnFood_onto createInitialSnake (mkPoint 23 23)).
  - by vm_compute.
  - compute_done.
Defined.

(** A result that reports no food eaten does not depend on the draw. *)
Lemma stepGame_random_frame rnd rnd' snake direction food r :
  stepGame rnd snake direction food = Some r →
  StepResult.ateFood r = false →
  stepGame rnd' snake direction food = Some r.
Proof.
  destruct snake as [|head tail]; [done|].
  unfold stepGame. simpl.
  repeat case_match; intros [= <-]; simpl; done.
Qed.

(** ** The page: what every reachable state satisfies *)

Lemma contiguous_cons_take a l n :
  contiguous (a :: l) → contiguous (a :: take n l).
Proof.
  revert a n. induction l as [|b l IH]; intros a n H.
  - by rewrite take_nil.
  - destruct n as [|n]; [done|]. destruct H as [Hab Hrest].
    simpl. split; [done|]. by apply IH.
Qed.

(** A step of the engine keeps the body on the board and in one piece. *)
Lemma stepGame_geometry rnd snake direction food r :
  Forall inGrid snake → contiguous snake →
  stepGame rnd snake direction food = Some r →
  Forall inGrid (StepResult.nextSnake r)
  ∧ contiguous (StepResult.nextSnake r).
Proof.
  intros Hgrid Hcont Hr.
  apply stepGame_Some_inv in Hr as
    (head & tail & -> & [[-> _]|(-> & Hg & _)]); [done|].
  assert (adjacent (newHeadOf head direction) head) as Hadj.
  { destruct head as [hx hy].
    destruct direction; unfold adjacent, newHeadOf; simpl; lia. }
  simpl. destruct (samePoint _ food).
  - split; [by apply Forall_cons|]. by split.
  - split.
    + apply Forall_cons. split; [done|]. by apply Forall_take.
    + unfold slice_0_m1. simpl length. rewrite Nat.sub_1_r. simpl pred.
      destruct tail as [|neck rest]; [done|].
      change (take (length (neck :: rest)) (head :: neck :: rest))
        with (head :: take (length rest) (neck :: rest)).
      split; [done|]. by apply contiguous_cons_take.
Qed.

(** The new food is on the board, and on the snake only when the snake
    covers the board. *)
Lemma stepGame_food rnd snake direction food r f :
  unit_interval rnd →
  inGrid food → (food ∈ snake → boardFull snake) →
  stepGame rnd snake direction food = Some r →
  StepResult.nextFood r = Some f →
  inGrid f
  ∧ (f ∈ StepResult.nextSnake r → boardFull (StepResult.nextSnake r)).
Proof.
  intros Hrnd Hfg Hfull Hr Hf.
  apply stepGame_Some_inv in Hr as
    (head & tail & -> & [[-> _]|(-> & Hg & Hc)]).
  { simpl in *. by simplify_eq. }
  simpl in *. destruct (samePoint _ food) eqn:Hate.
  - destruct (emptyCells (newHeadOf head direction :: head :: tail))
      as [|c0 cells] eqn:Hempty.
    + rewrite spawnFood_full_board in Hf by done. simpl in Hf.
      simplify_eq. split; [done|]. intros _.
      exact (proj1 (emptyCells_nil_iff _) Hempty).
    + destruct (spawnFood_empty_cell rnd
                  (newHeadOf head direction :: head :: tail) Hrnd)
        as (c & Hc' & Hin); [by rewrite Hempty|].
      rewrite Hf in Hc'. simplify_eq.
      apply elem_of_emptyCells in Hin as [? ?]. done.
  - simplify_eq. split; [done|]. intros Hin.
    apply elem_of_cons in Hin as [->|Hin].
    { rewrite (proj2 (samePoint_true _ _) eq_refl) in Hate. done. }
    unfold bodyToCheck in Hc.
    assert (boardFull (head :: tail)) as Hboard.
    { apply Hfull. by eapply subseteq_take. }
    intros c Hcg. pose proof (Hboard c Hcg) as Hb.
    pose proof (Hboard _ Hg) as Hnew.
    destruct (decide (c = newHeadOf head direction)) as [->|Hne]; [left|].
    right. rewrite slice_0_m1_removelast in *.
    pose proof (app_removelast_last head (l:=head :: tail) ltac:(done))
      as Hsplit.
    rewrite Hsplit in Hb, Hnew.
    apply elem_of_app in Hb as [?|Hlast]; [done|].
    apply list_elem_of_singleton in Hlast.
    apply elem_of_app in Hnew as [?|Hnew]; [done|].
    apply list_elem_of_singleton in Hnew. congruence.
Qed.

Section PageInvariants.
Import HomePage.

(** The three things a key can do. *)
Lemma onKeyDown_cases key st :
  onKeyDown key st = st
  ∨ (onKeyDown key st = togglePaused st
     ∧ isStarted st = true ∧ isGameOver st = false)
  ∨ (∃ mapped,
       onKeyDown key st
       = mkState (snake st) (direction st) (food st) (score st)
           (isStarted st) (isPaused st) (isGameOver st)
           (directionRef st) (Some mapped)
       ∧ timerArmed st = true
       ∧ resolveDirectionInput key (directionRef st) = Some mapped
       ∧ mapped ≠ OPPOSITE_DIRECTION (activeDirection st)).
Proof.
  unfold onKeyDown, timerArmed.
  destruct (String.eqb key " ").
  - destruct (isStarted st), (isGameOver st); simpl; auto.
  - destruct (resolveDirectionInput key (directionRef st)) as [mapped|];
      [|by left].
    destruct (isStarted st) eqn:Hs, (isPaused st) eqn:Hp,
      (isGameOver st) eqn:Hg; simpl; auto.
    unfold applyInputDirection. case_decide; [by left|].
    right. right. exists mapped. rewrite Hs, Hp, Hg. repeat split; done.
Qed.

(** The six shapes of the state after one event. *)
Lemma step_cases st st' :
  step st st' →
  st' = st
  ∨ (st' = togglePaused st ∧ isStarted st = true ∧ isGameOver st = false)
  ∨ (∃ mapped,
       st' = mkState (snake st) (direction st) (food st) (score st)
               (isStarted st) (isPaused st) (isGameOver st)
               (directionRef st) (Some mapped)
       ∧ timerArmed st = true)
  ∨ (∃ rnd, unit_interval rnd ∧ timerArmed st = true
            ∧ onTimeout rnd st = Some st')
  ∨ (∃ rnd f, unit_interval rnd
              ∧ spawnFood rnd createInitialSnake = Some f
              ∧ st' = mkState createInitialSnake right f 0
                        true false false right None)
  ∨ (isStarted st = true
     ∧ st' = mkState (snake st) (direction st) (food st) (score st)
               true false false (directionRef st) (pendingDirectionRef st)).
Proof.
  intros [key st0|rnd st0 st1 Hrnd Harmed Ht|rnd st0 st1 Hrnd Hs
         |st0 Hp|rnd st0 st1 Hrnd Hs].
  - destruct (onKeyDown_cases key st0) as [->|[(-> & ? & ?)|(m & -> & ? & _)]];
      [by left|by right; left|].
    right. right. left. by exists m.
  - right. right. right. left. by exists rnd.
  - unfold clickStart, resetGame in Hs.
    destruct (isStarted st0) eqn:Hstarted; simpl in Hs.
    + simplify_eq. do 5 right. done.
    + destruct (spawnFood rnd createInitialSnake) as [f|] eqn:Hf; [|done].
      simpl in Hs. simplify_eq. do 4 right. left. by exists rnd, f.
  - unfold pauseEnabled in Hp.
    destruct (isStarted st0) eqn:?, (isGameOver st0) eqn:?; try done.
    right. left. done.
  - unfold clickRestart, resetGame in Hs.
    destruct (spawnFood rnd createInitialSnake) as [f|] eqn:Hf; [|done].
    simpl in Hs. simplify_eq. do 4 right. left. by exists rnd, f.
Qed.

Lemma spawnFood_initial_fresh rnd f :
  unit_interval rnd → spawnFood rnd createInitialSnake = Some f →
  inGrid f ∧ f ∉ createInitialSnake.
Proof.
  intros Hrnd Hf.
  destruct (spawnFood_empty_cell rnd createInitialSnake Hrnd)
    as (c & Hc & Hin).
  { intros Hnil.
    pose proof (proj1 (emptyCells_nil_iff _) Hnil (mkPoint 0 0)
                  ltac:(by vm_compute)) as H00.
    revert H00. compute_done. }
  rewrite Hf in Hc. simplify_eq. by apply elem_of_emptyCells in Hin.
Qed.

(** The body: on the board, in one piece, three cells or more. *)
Lemma reachable_geometry st :
  reachable st →
  Forall inGrid (snake st) ∧ contiguous (snake st)
  ∧ (3 ≤ length (snake st))%nat.
Proof.
  assert (Forall inGrid createInitialSnake ∧ contiguous createInitialSnake
          ∧ (3 ≤ length createInitialSnake)%nat) as Hinit.
  { split; [repeat constructor; by vm_compute|].
    split; [by vm_compute|simpl; lia]. }
  induction 1 as [rnd st _ Hi|st st' _ IH Hstep].
  - unfold initialState in Hi. destruct (spawnFood _ _); [|done].
    by simplify_eq/=.
  - destruct IH as (Hgrid & Hcont & Hlen).
    apply step_cases in Hstep as
      [->|[(-> & _)|[(m & -> & _)|[(rnd & _ & _ & Ht)
      |[(rnd & f & _ & _ & ->)|(_ & ->)]]]]]; try done.
    apply onTimeout_Some_inv in Ht as (r & f & Hr & _ & ->). simpl.
    destruct (stepGame_geometry _ _ _ _ _ Hgrid Hcont Hr) as [? ?].
    split; [done|]. split; [done|].
    apply stepGame_length in Hr. rewrite Hr.
    destruct (StepResult.ateFood r); lia.
Qed.

(** The score counts the cells gained. *)
Lemma reachable_score st :
  reachable st → Z.of_nat (length (snake st)) = score st + 3.
Proof.
  induction 1 as [rnd st _ Hi|st st' _ IH Hstep].
  - unfold initialState in Hi. destruct (spawnFood _ _); [|done].
    by simplify_eq/=.
  - apply step_cases in Hstep as
      [->|[(-> & _)|[(m & -> & _)|[(rnd & _ & _ & Ht)
      |[(rnd & f & _ & _ & ->)|(_ & ->)]]]]]; try done.
    apply onTimeout_Some_inv in Ht as (r & f & Hr & _ & ->). simpl.
    apply stepGame_length in Hr. rewrite Hr.
    destruct (StepResult.ateFood r); lia.
Qed.

(** The food: on the board, and off the snake unless the board is full. *)
Lemma reachable_food st :
  reachable st →
  inGrid (food st) ∧ (food st ∈ snake st → boardFull (snake st)).
Proof.
  induction 1 as [rnd st Hrnd Hi|st st' _ IH Hstep].
  - unfold initialState in Hi.
    destruct (spawnFood _ _) as [f|] eqn:Hf; [|done]. simplify_eq/=.
    destruct (spawnFood_initial_fresh rnd f Hrnd Hf). done.
  - destruct IH as [Hfg Hfull].
    apply step_cases in Hstep as
      [->|[(-> & _)|[(m & -> & _)|[(rnd & Hrnd & _ & Ht)
      |[(rnd & f & Hrnd & Hf & ->)|(_ & ->)]]]]]; try done.
    + apply onTimeout_Some_inv in Ht as (r & f & Hr & Hf & ->). simpl.
      by eapply stepGame_food.
    + simpl. destruct (spawnFood_initial_fresh rnd f Hrnd Hf). done.
Qed.

(** The flags and the two copies of the heading. *)
Lemma reachable_flags st :
  reachable st →
  direction st = directionRef st
  ∧ (isGameOver st = true → isPaused st = false)
  ∧ (isStarted st = false →
     snake st = createInitialSnake ∧ score st = 0
     ∧ directionRef st = right ∧ pendingDirectionRef st = None
     ∧ isPaused st = false ∧ isGameOver st = false).
Proof.
  induction 1 as [rnd st _ Hi|st st' _ IH Hstep].
  - unfold initialState in Hi. destruct (spawnFood _ _); [|done].
    by simplify_eq/=.
  - destruct IH as (Hdir & Hover & Hfresh).
    apply step_cases in Hstep as
      [->|[(-> & Hs & Hg)|[(m & -> & Harmed)|[(rnd & _ & Harmed & Ht)
      |[(rnd & f & _ & _ & ->)|(Hs & ->)]]]]]; simpl; try done.
    + rewrite Hs, Hg. done.
    + unfold timerArmed in Harmed.
      destruct (isStarted st), (isPaused st), (isGameOver st); done.
    + apply onTimeout_Some_inv in Ht as (r & f & _ & _ & ->). simpl.
      unfold timerArmed in Harmed.
      destruct (isStarted st), (isPaused st), (isGameOver st),
        (StepResult.isGameOver r); done.
Qed.

Lemma length_on_board snake :
  NoDup snake → Forall inGrid snake → (length snake ≤ 576)%nat.
Proof.
  intros Hnd Hgrid.
  change 576%nat with (length grid_cells). apply submseteq_length.
  apply NoDup_submseteq; [done|]. intros c Hc.
  apply elem_of_grid_cells. rewrite Forall_forall in Hgrid. by apply Hgrid.
Qed.

Lemma length_board_full snake :
  boardFull snake → (576 ≤ length snake)%nat.
Proof.
  intros Hfull.
  change 576%nat with (length grid_cells). apply submseteq_length.
  apply NoDup_submseteq; [apply NoDup_grid_cells|]. intros c Hc.
  by apply Hfull, elem_of_grid_cells.
Qed.

(** X11.  In every reachable state of the page the snake lies on the
    board, each of its cells is one orthogonal step from the next, and it has
    at least 3 and at most 576 cells. *)
Theorem reachable_snake_shape st :
  reachable st →
  Forall inGrid (snake st)
  ∧ contiguous (snake st)
  ∧ (3 ≤ length (snake st) ≤ 576)%nat.
Proof.
  intros Hreach.
  destruct (reachable_geometry st Hreach) as (Hgrid & Hcont & Hlen).
  destruct (reachable_body_invariant st Hreach) as [Hnd _].
  pose proof (length_on_board _ Hnd Hgrid). done.
Qed.

Lemma reachable_snake_shape_witness :
  Forall inGrid (snake running)
  ∧ contiguous (snake running)
  ∧ (3 ≤ length (snake running) ≤ 576)%nat.
Proof. apply (reachable_snake_shape running reachable_running). Defined.

(** X12.  In every reachable state the score is the number of cells the
    snake has gained over its first three; it lies between 0 and 573, and
    the tick interval computed from it lies between 80 and 150 ms. *)
Theorem reachable_score_length st :
  reachable st →
  score st = Z.of_nat (length (snake st)) - 3
  ∧ 0 <= score st <= 573
  ∧ MIN_TICK_MS <= getNextTick (score st) <= BASE_TICK_MS.
Proof.
  intros Hreach.
  pose proof (reachable_score st Hreach) as Hscore.
  destruct (reachable_geometry st Hreach) as (Hgrid & _ & Hlen).
  destruct (reachable_body_invariant st Hreach) as [Hnd _].
  pose proof (length_on_board _ Hnd Hgrid) as Hmax.
  split; [lia|]. split; [lia|].
  unfold getNextTick, MIN_TICK_MS, BASE_TICK_MS, SPEEDUP_EVERY_POINTS,
    SPEEDUP_STEP_MS.
  pose proof (Z.div_pos (score st) 5 ltac:(lia) ltac:(lia)). lia.
Qed.

Lemma reachable_score_length_witness :
  score running = Z.of_nat (length (snake running)) - 3
  ∧ 0 <= score running <= 573
  ∧ MIN_TICK_MS <= getNextTick (score running) <= BASE_TICK_MS.
Proof. apply (reachable_score_length running reachable_running). Defined.

(** X13.  In every reachable state the food is a board cell, and it lies
    on the snake only when the snake covers all 576 cells of the board. *)
Theorem reachable_food_placement st :
  reachable st →
  inGrid (food st)
  ∧ (food st ∈ snake st →
     boardFull (snake st) ∧ length (snake st) = 576%nat).
Proof.
  intros Hreach.
  destruct (reachable_food st Hreach) as [Hfg Hfull].
  split; [done|]. intros Hin. specialize (Hfull Hin). split; [done|].
  destruct (reachable_geometry st Hreach) as (Hgrid & _ & _).
  destruct (reachable_body_invariant st Hreach) as [Hnd _].
  pose proof (length_on_board _ Hnd Hgrid).
  pose proof (length_board_full _ Hfull). lia.
Qed.

Lemma reachable_food_placement_witness :
  inGrid (food running)
  ∧ (food running ∈ snake running →
     boardFull (snake running) ∧ length (snake running) = 576%nat).
Proof. apply (reachable_food_placement running reachable_running). Defined.

(** X14.  In every reachable state the rendered heading is the committed
    heading; a game that is over is not paused; and until the first Start or
    Restart nothing has changed: the snake is the initial one, the score is
    0, the heading is right, no heading is pending and the game is neither
    paused nor over. *)
Theorem reachable_status st :
  reachable st →
  direction st = directionRef st
  ∧ (isGameOver st = true → isPaused st = false)
  ∧ (isStarted st = false →
     snake st = createInitialSnake ∧ score st = 0
     ∧ directionRef st = right ∧ pendingDirectionRef st = None
     ∧ isPaused st = false ∧ isGameOver st = false).
Proof. apply reachable_flags. Qed.

Lemma reachable_status_witness :
  direction (pressAll ["ArrowUp"; " "; "d"] mounted)
  = directionRef (pressAll ["ArrowUp"; " "; "d"] mounted)
  ∧ (isGameOver (pressAll ["ArrowUp"; " "; "d"] mounted) = true →
     isPaused (pressAll ["ArrowUp"; " "; "d"] mounted) = false)
  ∧ (isStarted (pressAll ["ArrowUp"; " "; "d"] mounted) = false →
     snake (pressAll ["ArrowUp"; " "; "d"] mounted) = createInitialSnake
     ∧ score (pressAll ["ArrowUp"; " "; "d"] mounted) = 0
     ∧ directionRef (pressAll ["ArrowUp"; " "; "d"] mounted) = right
     ∧ pendingDirectionRef (pressAll ["ArrowUp"; " "; "d"] mounted) = None
     ∧ isPaused (pressAll ["ArrowUp"; " "; "d"] mounted) = false
     ∧ isGameOver (pressAll ["ArrowUp"; " "; "d"] mounted) = false).
Proof.
  apply (reachable_status (pressAll ["ArrowUp"; " "; "d"] mounted)).
  unfold pressAll. simpl.
  repeat (eapply reachable_step; [|apply step_key]).
  apply reachable_mounted.
Defined.

(** X15.  No handler fails in a reachable state: for every draw of
    [Math.random] in [[0, 1)] the timeout callback, Start and Restart all
    complete ([snake[0]] is there and the food handed back is a cell), and
    the state that the timeout of a running game leaves is reachable
    again. *)
Theorem reachable_handlers_complete rnd st :
  reachable st → unit_interval rnd →
  (∃ st', onTimeout rnd st = Some st'
          ∧ (timerArmed st = true → reachable st'))
  ∧ (∃ st', clickStart rnd st = Some st' ∧ reachable st')
  ∧ (∃ st', clickRestart rnd st = Some st' ∧ reachable st').
Proof.
  intros Hreach Hrnd.
  destruct (spawnFood_is_Some rnd createInitialSnake Hrnd) as [f Hf].
  split; [|split].
  - destruct (reachable_onTimeout_total rnd st Hreach Hrnd) as [st' Ht].
    exists st'. split; [done|]. intros Harmed.
    apply (reachable_step st); [done|]. by apply (step_timeout rnd).
  - assert (is_Some (clickStart rnd st)) as [st' Hs].
    { unfold clickStart, resetGame. rewrite Hf.
      destruct (isStarted st); by eexists. }
    exists st'. split; [done|].
    apply (reachable_step st); [done|]. by apply (step_start rnd).
  - assert (is_Some (clickRestart rnd st)) as [st' Hs].
    { unfold clickRestart, resetGame. rewrite Hf. by eexists. }
    exists st'. split; [done|].
    apply (reachable_step st); [done|]. by apply (step_restart rnd).
Qed.

Lemma reachable_handlers_complete_witness :
  (∃ st', onTimeout (mkRandom 1 3) running = Some st'
          ∧ (timerArmed running = true → reachable st'))
  ∧ (∃ st', clickStart (mkRandom 1 3) running = Some st' ∧ reachable st')
  ∧ (∃ st', clickRestart (mkRandom 1 3) running = Some st' ∧ reachable st').
Proof.
  apply (reachable_handlers_complete (mkRandom 1 3) running
           reachable_running).
  by vm_compute.
Defined.

End PageInvariants.

(** ** Keys, pause and restart *)

Section Controls.
Import HomePage.

Lemma togglePaused_involutive st : togglePaused (togglePaused st) = st.
Proof. destruct st. unfold togglePaused. simpl. by rewrite negb_involutive. Qed.

(** X16.  A key press never touches the snake, the food, the score, the
    rendered or committed heading, or the started and game-over flags: it can
    only flip the pause flag or set the pending heading.  Before the start
    and after game over every key leaves the state as it is, so does a key
    that is neither the space nor a direction key, and while the game is
    paused no key changes the pending heading. *)
Theorem onKeyDown_frame key st :
  snake (onKeyDown key st) = snake st
  ∧ food (onKeyDown key st) = food st
  ∧ score (onKeyDown key st) = score st
  ∧ direction (onKeyDown key st) = direction st
  ∧ directionRef (onKeyDown key st) = directionRef st
  ∧ isStarted (onKeyDown key st) = isStarted st
  ∧ isGameOver (onKeyDown key st) = isGameOver st
  ∧ (isStarted st = false ∨ isGameOver st = true → onKeyDown key st = st)
  ∧ (key ≠ " " → resolveDirectionInput key (directionRef st) = None →
     onKeyDown key st = st)
  ∧ (isPaused st = true →
     pendingDirectionRef (onKeyDown key st) = pendingDirectionRef st).
Proof.
  assert (snake (onKeyDown key st) = snake st
          ∧ food (onKeyDown key st) = food st
          ∧ score (onKeyDown key st) = score st
          ∧ direction (onKeyDown key st) = direction st
          ∧ directionRef (onKeyDown key st) = directionRef st
          ∧ isStarted (onKeyDown key st) = isStarted st
          ∧ isGameOver (onKeyDown key st) = isGameOver st) as Hframe.
  { destruct (onKeyDown_cases key st)
      as [Hk|[(Hk & _)|(m & Hk & _)]]; by rewrite Hk. }
  repeat (split; [apply Hframe|]). split; [|split].
  - intros Hidle. unfold onKeyDown.
    destruct (String.eqb key " "),
      (resolveDirectionInput key (directionRef st));
      destruct Hidle as [H|H]; rewrite ?H; simpl; try done;
      by rewrite ?orb_true_r.
  - intros Hkey Hnone. unfold onKeyDown.
    apply String.eqb_neq in Hkey. by rewrite Hkey, Hnone.
  - intros Hpaused.
    destruct (onKeyDown_cases key st)
      as [Hk|[(Hk & _)|(m & Hk & Harmed & _)]]; [by rewrite Hk..|].
    unfold timerArmed in Harmed. rewrite Hpaused in Harmed.
    by destruct (isStarted st).
Qed.

Lemma onKeyDown_frame_witness :
  onKeyDown "ArrowUp" mounted = mounted
  ∧ onKeyDown "Escape" running = running
  ∧ pendingDirectionRef (onKeyDown "ArrowUp" (onKeyDown " " running))
    = pendingDirectionRef (onKeyDown " " running).
Proof.
  split; [|split].
  - apply (proj1 (proj2 (proj2 (proj2 (proj2 (proj2 (proj2 (proj2
             (onKeyDown_frame "ArrowUp" mounted))))))))).
    by left.
  - apply (proj1 (proj2 (proj2 (proj2 (proj2 (proj2 (proj2 (proj2 (proj2
             (onKeyDown_frame "Escape" running)))))))))); done.
  - apply (proj2 (proj2 (proj2 (proj2 (proj2 (proj2 (proj2 (proj2 (proj2
             (onKeyDown_frame "ArrowUp" (onKeyDown " " running))))))))))).
    reflexivity.
Defined.

(** X17.  Pausing and resuming gives back the state exactly, whether by
    two presses of the space key or by two clicks on the Pause button: the
    snake, the food, the score and the pending heading are as they were. *)
Theorem pause_resume_round_trip st :
  onKeyDown " " (onKeyDown " " st) = st
  ∧ clickPause (clickPause st) = st.
Proof.
  split; [|apply togglePaused_involutive].
  unfold onKeyDown. simpl.
  destruct (isStarted st) eqn:Hs, (isGameOver st) eqn:Hg; simpl;
    rewrite ?Hs, ?Hg; simpl; try done.
  apply togglePaused_involutive.
Qed.

(** X18.  Sending the same request twice is the same as sending it once,
    and after any run of requests the pending heading is the one that was
    pending before or one of the requests of the run; nothing but the
    pending heading changes. *)
Theorem queueAll_pending requests st :
  (∀ requested,
     applyInputDirection requested (applyInputDirection requested st)
     = applyInputDirection requested st)
  ∧ (pendingDirectionRef (queueAll requests st) = pendingDirectionRef st
     ∨ ∃ requested, requested ∈ requests ∧
         pendingDirectionRef (queueAll requests st) = Some requested)
  ∧ queueAll requests st
    = mkState (snake st) (direction st) (food st) (score st)
        (isStarted st) (isPaused st) (isGameOver st) (directionRef st)
        (pendingDirectionRef (queueAll requests st)).
Proof.
  split; [|split].
  - intros requested. unfold applyInputDirection at 2 3.
    case_decide as Hrej.
    + unfold applyInputDirection. by rewrite decide_True.
    + unfold applyInputDirection, activeDirection. simpl.
      case_decide as Hrej'; [|done].
      by destruct requested.
  - revert st. unfold queueAll.
    induction requests as [|r requests IH]; intros st; [by left|]. simpl.
    destruct (IH (applyInputDirection r st)) as [Hsame|(r' & Hin & Hr')].
    + rewrite Hsame. unfold applyInputDirection.
      case_decide; [by left|]. right. exists r. split; [left|done].
    + right. exists r'. split; [by right|done].
  - revert st. unfold queueAll.
    induction requests as [|r requests IH]; intros st; [by destruct st|].
    simpl. rewrite IH at 1. unfold applyInputDirection.
    by case_decide.
Qed.

(** X19.  Two requests between two timeouts, with no heading pending
    before them: the heading that the next timeout commits is the opposite
    of the committed one exactly when the second request is that opposite
    and the first is a turn to either side (neither the committed heading
    nor its opposite). *)
Theorem two_requests_reverse first second st :
  pendingDirectionRef st = None →
  (activeDirection (queueAll [first; second] st)
   = OPPOSITE_DIRECTION (directionRef st)
   ↔ second = OPPOSITE_DIRECTION (directionRef st)
     ∧ first ≠ directionRef st
     ∧ first ≠ OPPOSITE_DIRECTION (directionRef st)).
Proof.
  intros Hpending. destruct st as [sn dir fd sc started paused over cur pend].
  simpl in *. subst pend.
  unfold queueAll, applyInputDirection, activeDirection. simpl.
  destruct cur, first, second; simpl; split;
    try (intros (? & ? & ?)); try (intros ?); try done;
    repeat split; done.
Qed.

Lemma two_requests_reverse_witness :
  activeDirection (queueAll [down; left] running)
  = OPPOSITE_DIRECTION (directionRef running).
Proof.
  apply (proj2 (two_requests_reverse down left running eq_refl)).
  repeat split; done.
Defined.

End Controls.

(** ** Game over, pause and the timer *)

Section Standstill.
Import HomePage.

(** X20.  While the timer is not armed (before the start, during a pause
    and after game over) no event moves the snake: the snake, the food, the
    score, the committed and the pending heading stay as they are, unless
    the event is a Start or Restart that begins a fresh game with the
    initial snake, score 0, heading right and nothing pending. *)
Theorem standstill_unless_armed st st' :
  step st st' → timerArmed st = false →
  (snake st' = snake st ∧ food st' = food st ∧ score st' = score st
   ∧ directionRef st' = directionRef st
   ∧ pendingDirectionRef st' = pendingDirectionRef st)
  ∨ (snake st' = createInitialSnake ∧ score st' = 0
     ∧ directionRef st' = right ∧ pendingDirectionRef st' = None
     ∧ isStarted st' = true ∧ isPaused st' = false
     ∧ isGameOver st' = false).
Proof.
  intros Hstep Hidle.
  apply step_cases in Hstep as
    [->|[(-> & _)|[(m & _ & Harmed)|[(rnd & _ & Harmed & _)
    |[(rnd & f & _ & _ & ->)|(_ & ->)]]]]]; try congruence.
  - by left.
  - by left.
  - right. done.
  - by left.
Qed.

Lemma standstill_unless_armed_witness :
  (snake (onKeyDown "ArrowUp" (clickPause running))
   = snake (clickPause running)
   ∧ food (onKeyDown "ArrowUp" (clickPause running))
     = food (clickPause running)
   ∧ score (onKeyDown "ArrowUp" (clickPause running))
     = score (clickPause running)
   ∧ directionRef (onKeyDown "ArrowUp" (clickPause running))
     = directionRef (clickPause running)
   ∧ pendingDirectionRef (onKeyDown "ArrowUp" (clickPause running))
     = pendingDirectionRef (clickPause running))
  ∨ (snake (onKeyDown "ArrowUp" (clickPause running)) = createInitialSnake
     ∧ score (onKeyDown "ArrowUp" (clickPause running)) = 0
     ∧ directionRef (onKeyDown "ArrowUp" (clickPause running)) = right
     ∧ pendingDirectionRef (onKeyDown "ArrowUp" (clickPause running)) = None
     ∧ isStarted (onKeyDown "ArrowUp" (clickPause running)) = true
     ∧ isPaused (onKeyDown "ArrowUp" (clickPause running)) = false
     ∧ isGameOver (onKeyDown "ArrowUp" (clickPause running)) = false).
Proof.
  apply (standstill_unless_armed (clickPause running)
           (onKeyDown "ArrowUp" (clickPause running))).
  - apply step_key.
  - reflexivity.
Defined.

(** X21.  Start does not reset a game that is over.  When a timeout of a
    running game ends the game, a click on Start clears the game-over flag
    and keeps the snake, the food, the score and the heading that was
    committed by the fatal timeout; the timer is armed again, and with no
    key pressed the next timeout ends the game in the very same state. *)
Theorem start_after_game_over_replays rnd rnd1 rnd2 st st1 :
  isStarted st = true → isGameOver st = false →
  onTimeout rnd st = Some st1 → isGameOver st1 = true →
  ∃ st2,
    clickStart rnd1 st1 = Some st2
    ∧ snake st2 = snake st ∧ food st2 = food st ∧ score st2 = score st
    ∧ directionRef st2 = activeDirection st
    ∧ timerArmed st2 = true
    ∧ onTimeout rnd2 st2 = Some st1.
Proof.
  intros Hs Hg Ht Hover.
  apply onTimeout_Some_inv in Ht as (r & f & Hr & Hf & ->).
  simpl in Hover. rewrite Hg in Hover.
  destruct (StepResult.isGameOver r) eqn:Hrover; [|done].
  pose proof Hr as Hinv.
  apply stepGame_Some_inv in Hinv as
    (head & tail & Hsn & [[-> _]|(-> & _ & _)]); [|done].
  simpl in *. simplify_eq. rewrite Hs.
  eexists. split; [reflexivity|]. simpl.
  repeat split; try done.
  unfold onTimeout, activeDirection. simpl.
  pose proof (stepGame_random_frame rnd rnd2 _ _ _ _ Hr eq_refl) as Hr2.
  fold (activeDirection st). rewrite Hr2. simpl. done.
Qed.

Lemma start_after_game_over_replays_witness :
  ∃ st2,
    clickStart (mkRandom 0 1)
      (mkState createInitialSnake left (mkPoint 0 0) 0
         true false true left None) = Some st2
    ∧ snake st2 = snake (pressAll ["ArrowUp"; "ArrowLeft"] running)
    ∧ food st2 = food (pressAll ["ArrowUp"; "ArrowLeft"] running)
    ∧ score st2 = score (pressAll ["ArrowUp"; "ArrowLeft"] running)
    ∧ directionRef st2
      = activeDirection (pressAll ["ArrowUp"; "ArrowLeft"] running)
    ∧ timerArmed st2 = true
    ∧ onTimeout (mkRandom 1 2) st2
      = Some (mkState createInitialSnake left (mkPoint 0 0) 0
                true false true left None).
Proof.
  apply (start_after_game_over_replays (mkRandom 0 1) (mkRandom 0 1)
           (mkRandom 1 2) (pressAll ["ArrowUp"; "ArrowLeft"] running));
    reflexivity.
Defined.

End Standstill.

(** ** The best score *)

Lemma codeUnits_String c s :
  codeUnits (String c s) = Ascii.N_of_ascii c :: codeUnits s.
Proof. reflexivity. Qed.

Lemma digitValue_pretty_N_char d :
  (d < 10)%N → digitValue (Ascii.N_of_ascii (pretty_N_char d)) = Some d.
Proof.
  intros Hd.
  assert (d ∈ [0; 1; 2; 3; 4; 5; 6; 7; 8; 9]%N) as Hin.
  { rewrite !elem_of_cons. lia. }
  repeat (apply elem_of_cons in Hin as [->|Hin]; [reflexivity|]).
  by apply elem_of_nil in Hin.
Qed.

Lemma digit_not_special u d :
  digitValue u = Some d →
  isWhiteSpace u = false ∧ (u =? 45)%N = false ∧ (u =? 43)%N = false.
Proof.
  unfold digitValue, isWhiteSpace. intros H.
  destruct ((48 <=? u) && (u <=? 57))%N eqn:Hdigit; [|done].
  apply andb_true_iff in Hdigit as [H1%N.leb_le H2%N.leb_le].
  split; [|split; apply N.eqb_neq; lia].
  repeat (apply orb_false_iff; split);
    try (apply N.eqb_neq; lia);
    apply andb_false_iff; [right|left]; apply N.leb_gt; lia.
Qed.

(** Reading the numeral of [n] puts the digits of [n] on top of [acc]. *)
Lemma parseDigits_pretty_N_go n :
  (0 < n)%N →
  ∃ k : N, ∀ acc s rest,
    parseDigits acc (codeUnits (pretty_N_go n s) ++ rest)
    = parseDigits (Some (10 ^ k * default 0 acc + n)%N)
        (codeUnits s ++ rest).
Proof.
  induction (N.lt_wf_0 n) as [n _ IH]. intros Hn.
  assert (digitValue (Ascii.N_of_ascii (pretty_N_char (n `mod` 10)))
          = Some (n `mod` 10)%N)
    as Hdigit by (apply digitValue_pretty_N_char, N.mod_lt; lia).
  pose proof (N.div_mod n 10 ltac:(lia)) as Hdm.
  destruct (decide (n `div` 10 = 0)%N) as [Hz|Hnz].
  - exists 1%N. intros acc s rest. rewrite pretty_N_go_step by done.
    rewrite Hz, pretty_N_go_0, codeUnits_String. simpl. rewrite Hdigit.
    f_equal. f_equal. lia.
  - destruct (IH (n `div` 10)%N) as [k Hk].
    { apply N.div_lt; lia. }
    { by apply N.neq_0_lt_0. }
    exists (k + 1)%N. intros acc s rest. rewrite pretty_N_go_step by done.
    rewrite Hk, codeUnits_String. simpl. rewrite Hdigit. simpl.
    f_equal. f_equal. rewrite N.pow_add_r. lia.
Qed.

Lemma pretty_N_go_head n s :
  (0 < n)%N →
  ∃ u rest d,
    codeUnits (pretty_N_go n s) = u :: rest ∧ digitValue u = Some d.
Proof.
  revert s. induction (N.lt_wf_0 n) as [n _ IH]. intros s Hn.
  rewrite pretty_N_go_step by done.
  destruct (decide (n `div` 10 = 0)%N) as [Hz|Hnz].
  - rewrite Hz, pretty_N_go_0, codeUnits_String. do 3 eexists.
    split; [done|]. apply digitValue_pretty_N_char, N.mod_lt. lia.
  - apply IH; [apply N.div_lt; lia|by apply N.neq_0_lt_0].
Qed.

Lemma roundToDouble_exact m :
  0 <= m < 2 ^ 53 → roundToDouble m = Some m.
Proof.
  intros [Hlo Hhi]. unfold roundToDouble.
  assert (Z.log2 m < 53) as Hlog.
  { destruct (decide (m = 0)) as [->|Hne]; [done|].
    apply Z.log2_lt_pow2; lia. }
  apply Z.ltb_lt in Hlog. by rewrite Hlog.
Qed.

(** What follows a numeral: nothing, or something that is not a digit. *)
Lemma parseDigits_stop acc rest :
  (∀ u t, rest = u :: t → digitValue u = None) →
  parseDigits acc rest = acc.
Proof.
  intros Hrest. destruct rest as [|u t]; [done|]. simpl.
  by rewrite (Hrest u t eq_refl).
Qed.

Lemma parseInt_pretty_pos p rest :
  Z.pos p < 2 ^ 53 →
  (∀ u t, rest = u :: t → digitValue u = None) →
  parseInt (numberToString (Z.pos p) ++ rest) = Finite (Z.pos p)
  ∧ parseInt (numberToString (Z.neg p) ++ rest) = Finite (Z.neg p).
Proof.
  intros Hsafe Hrest.
  assert (numberToString (Z.pos p) = codeUnits (pretty_N_go (N.pos p) ""))
    as Hpos.
  { unfold numberToString. change (pretty (Z.pos p)) with (pretty (N.pos p)).
    unfold pretty, pretty_N. by rewrite decide_False. }
  assert (numberToString (Z.neg p)
          = 45%N :: codeUnits (pretty_N_go (N.pos p) "")) as Hneg.
  { unfold numberToString.
    change (pretty (Z.neg p)) with (String "-" (pretty (N.pos p))).
    rewrite codeUnits_String.
    unfold pretty, pretty_N. by rewrite decide_False. }
  assert (parseDigits None (codeUnits (pretty_N_go (N.pos p) "") ++ rest)
          = Some (N.pos p)) as Hdigits.
  { destruct (parseDigits_pretty_N_go (N.pos p) ltac:(lia)) as [k Hk].
    rewrite Hk. simpl. rewrite N.mul_0_r. simpl.
    by apply parseDigits_stop. }
  assert (roundToDouble (Z.pos p) = Some (Z.pos p)) as Hround
    by (apply roundToDouble_exact; lia).
  destruct (pretty_N_go_head (N.pos p) "" ltac:(lia))
    as (u & t & d & Hhead & Hd).
  destruct (digit_not_special u d Hd) as (Hws & Hminus & Hplus).
  split.
  - rewrite Hpos. unfold parseInt. rewrite Hhead.
    cbn [app trimStart]. rewrite Hws, Hminus, Hplus.
    change (u :: t ++ rest) with ((u :: t) ++ rest).
    rewrite <-Hhead, Hdigits. unfold toNumber.
    change (Z.of_N (N.pos p)) with (Z.pos p). by rewrite Hround.
  - rewrite Hneg.
    change (parseInt ((45%N :: codeUnits (pretty_N_go (N.pos p) "")) ++ rest))
      with (match parseDigits None
                    (codeUnits (pretty_N_go (N.pos p) "") ++ rest) with
            | Some n => toNumber true (Z.of_N n)
            | None => NaN
            end).
    rewrite Hdigits. unfold toNumber.
    change (Z.of_N (N.pos p)) with (Z.pos p). by rewrite Hround.
Qed.

Lemma parseInt_numeral (n : Z) rest :
  Z.abs n < 2 ^ 53 →
  (∀ u t, rest = u :: t → digitValue u = None) →
  parseInt (numberToString n ++ rest) = Finite n.
Proof.
  intros Hsafe Hrest. destruct n as [|p|p].
  - change (parseInt (numberToString 0 ++ rest))
      with (match parseDigits (Some 0%N) rest with
            | Some n => toNumber false (Z.of_N n)
            | None => NaN
            end).
    rewrite parseDigits_stop by done. reflexivity.
  - apply parseInt_pretty_pos; [lia|done].
  - apply parseInt_pretty_pos; [lia|done].
Qed.

Lemma parseInt_white_space ws s :
  Forall (λ u, isWhiteSpace u = true) ws → parseInt (ws ++ s) = parseInt s.
Proof.
  intros Hws. unfold parseInt.
  assert (trimStart (ws ++ s) = trimStart s) as ->; [|done].
  induction Hws as [|u ws Hu _ IH]; [done|]. simpl. by rewrite Hu.
Qed.

(** No digit after the white space and the sign: not a number. *)
Lemma parseInt_no_digit ws sign rest :
  Forall (λ u, isWhiteSpace u = true) ws →
  sign = [] ∨ sign = [45%N] ∨ sign = [43%N] →
  (∀ u t, rest = u :: t →
     digitValue u = None
     ∧ (sign = [] → isWhiteSpace u = false ∧ u ≠ 45%N ∧ u ≠ 43%N)) →
  parseInt (ws ++ sign ++ rest) = NaN.
Proof.
  intros Hws Hsign Hrest. rewrite parseInt_white_space by done.
  assert (parseDigits None rest = None) as Hdigits.
  { apply parseDigits_stop. intros u t Hut. by apply (Hrest u t). }
  destruct Hsign as [-> |[-> | ->]].
  - destruct rest as [|u t]; [done|].
    destruct (Hrest u t eq_refl) as [Hd Hplain].
    destruct (Hplain eq_refl) as (Hu & Hm%N.eqb_neq & Hp%N.eqb_neq).
    unfold parseInt. simpl. rewrite Hu, Hm, Hp. simpl. by rewrite Hd.
  - change (parseInt ([45%N] ++ rest))
      with (match parseDigits None rest with
            | Some n => toNumber true (Z.of_N n)
            | None => NaN
            end).
    by rewrite Hdigits.
  - change (parseInt ([43%N] ++ rest))
      with (match parseDigits None rest with
            | Some n => toNumber false (Z.of_N n)
            | None => NaN
            end).
    by rewrite Hdigits.
Qed.

Lemma numberToString_nonempty (n : Z) :
  ∃ u t, numberToString n = u :: t.
Proof.
  destruct n as [|p|p].
  - by exists 48%N, [].
  - change (numberToString (Z.pos p)) with (codeUnits (pretty (N.pos p))).
    unfold pretty, pretty_N. rewrite decide_False by done.
    destruct (pretty_N_go_head (N.pos p) "" ltac:(lia))
      as (u & t & d & -> & _).
    by eexists _, _.
  - by eexists _, _.
Qed.

(** X22.  Reading back what [String] wrote: for every integer [n] below
    [2^53] in magnitude, [Number.parseInt (String (n), 10)] is [n]; white
    space before the numeral (NBSP and the other Unicode spaces included) is
    skipped, and what follows the numeral is ignored as long as it does not
    start with a digit.  The bound is needed: the numeral of [2^53 + 1] reads
    as [2^53]. *)
Theorem parseInt_String (n : Z) :
  Z.abs n < 2 ^ 53 →
  parseInt (numberToString n) = Finite n
  ∧ (∀ ws rest,
       Forall (λ u, isWhiteSpace u = true) ws →
       (∀ u t, rest = u :: t → digitValue u = None) →
       parseInt (ws ++ numberToString n ++ rest) = Finite n)
  ∧ parseInt (numberToString (2 ^ 53 + 1)) = Finite (2 ^ 53).
Proof.
  intros Hsafe. split; [|split].
  - rewrite <-(app_nil_r (numberToString n)).
    by apply parseInt_numeral.
  - intros ws rest Hws Hrest. rewrite parseInt_white_space by done.
    by apply parseInt_numeral.
  - vm_compute. reflexivity.
Qed.

Lemma parseInt_String_witness :
  parseInt ([160; 32]%N ++ numberToString 134 ++ codeUnits "ms")
  = Finite 134.
Proof.
  apply (proj1 (proj2 (parseInt_String 134 ltac:(by vm_compute)))
           [160; 32]%N (codeUnits "ms")).
  - repeat constructor.
  - intros u t [= ? ?]. by subst.
Defined.

(** X23.  The best score and its storage, for a best score that is a
    number [best].  Saving makes the best score the larger of the score and
    [best], so it never goes down.  When the score is a new best below
    [2^53] and the write succeeds, a later load reads exactly that score
    back, whatever best score it starts from, and the other keys of the
    storage are untouched.  When the score is no new best or the write
    fails the storage is as it was.  A storage that cannot be accessed, or
    holds no item or an empty one under the key, or one with no digit after
    its white space and optional sign, leaves the best score at its value;
    an item that holds the numeral of [n], possibly after white space, makes
    the best score [n]. *)
Theorem bestScore_persists quotaLeft score best items :
  (saveBestScore quotaLeft score (Finite best) (Some items)).1
  = Finite (Z.max score best)
  ∧ (best < score → quotaLeft = true → Z.abs score < 2 ^ 53 →
     (∀ fresh,
        loadBestScore
          (saveBestScore quotaLeft score (Finite best) (Some items)).2 fresh
        = Finite score)
     ∧ (∀ key, key ≠ BEST_SCORE_KEY →
          ((saveBestScore quotaLeft score (Finite best) (Some items)).2
             ≫= (λ m, m !! key))
          = items !! key))
  ∧ (score <= best ∨ quotaLeft = false →
     (saveBestScore quotaLeft score (Finite best) (Some items)).2
     = Some items)
  ∧ saveBestScore quotaLeft score (Finite best) None
    = (Finite (Z.max score best), None)
  ∧ (∀ bestScore,
       loadBestScore None bestScore = bestScore
       ∧ (items !! BEST_SCORE_KEY = None ∨ items !! BEST_SCORE_KEY = Some [] →
          loadBestScore (Some items) bestScore = bestScore)
       ∧ (∀ ws sign rest,
            Forall (λ u, isWhiteSpace u = true) ws →
            sign = [] ∨ sign = [45%N] ∨ sign = [43%N] →
            (∀ u t, rest = u :: t →
               digitValue u = None
               ∧ (sign = [] →
                  isWhiteSpace u = false ∧ u ≠ 45%N ∧ u ≠ 43%N)) →
            items !! BEST_SCORE_KEY = Some (ws ++ sign ++ rest) →
            loadBestScore (Some items) bestScore = bestScore)
       ∧ (∀ ws n,
            Forall (λ u, isWhiteSpace u = true) ws →
            Z.abs n < 2 ^ 53 →
            items !! BEST_SCORE_KEY = Some (ws ++ numberToString n) →
            loadBestScore (Some items) bestScore = Finite n)).
Proof.
  assert (∀ (m : gmap string JSString) stored bestScore,
            m !! BEST_SCORE_KEY = Some stored →
            loadBestScore (Some m) bestScore
            = if isNaN (parseInt stored) then bestScore
              else parseInt stored) as Hload.
  { intros m stored bestScore Hitem. unfold loadBestScore. rewrite Hitem.
    by destruct stored. }
  assert (∀ ws n, Forall (λ u, isWhiteSpace u = true) ws →
            Z.abs n < 2 ^ 53 →
            parseInt (ws ++ numberToString n) = Finite n) as Hread.
  { intros ws n Hws Hn. rewrite parseInt_white_space by done.
    rewrite <-(app_nil_r (numberToString n)). by apply parseInt_numeral. }
  unfold saveBestScore, greaterThan.
  destruct (score >? best) eqn:Hgt; simpl.
  - apply Z.gtb_gt in Hgt. split; [f_equal; lia|].
    split; [|split; [|split; [|split; [|split; [|split]]]]].
    + intros _ -> Hsafe. simpl. split.
      * intros fresh.
        rewrite (Hload _ (numberToString score)) by apply lookup_insert_eq.
        pose proof (Hread [] score ltac:(constructor) Hsafe) as Hback.
        simpl in Hback. by rewrite Hback.
      * intros key Hkey. by rewrite lookup_insert_ne.
    + intros [?| ->]; [lia|done].
    + destruct quotaLeft; do 2 f_equal; lia.
    + done.
    + unfold loadBestScore. by intros [-> | ->].
    + intros ws sign rest Hws Hsign Hrest Hitem.
      rewrite (Hload _ _ _ Hitem). by rewrite parseInt_no_digit.
    + intros ws n Hws Hn Hitem.
      rewrite (Hload _ _ _ Hitem). by rewrite Hread.
  - rewrite Z.gtb_ltb in Hgt. apply Z.ltb_ge in Hgt.
    split; [f_equal; lia|]. split; [lia|]. split; [done|].
    split; [do 2 f_equal; lia|].
    intros bestScore. split; [done|]. split; [|split].
    + unfold loadBestScore. by intros [-> | ->].
    + intros ws sign rest Hws Hsign Hrest Hitem.
      rewrite (Hload _ _ _ Hitem). by rewrite parseInt_no_digit.
    + intros ws n Hws Hn Hitem.
      rewrite (Hload _ _ _ Hitem). by rewrite Hread.
Qed.

Lemma bestScore_persists_witness :
  (∀ fresh,
     loadBestScore (saveBestScore true 12 (Finite 7) (Some ∅)).2 fresh
     = Finite 12)
  ∧ (saveBestScore false 12 (Finite 7) (Some ∅)).2 = Some ∅
  ∧ loadBestScore (Some {[BEST_SCORE_KEY := codeUnits "best"]}) (Finite 7)
    = Finite 7
  ∧ loadBestScore
      (Some {[BEST_SCORE_KEY := [160%N] ++ numberToString 7]}) (Finite 0)
    = Finite 7.
Proof.
  split; [|split; [|split]].
  - apply (proj1 (proj2 (bestScore_persists true 12 7 ∅)));
      [lia|done|by vm_compute].
  - apply (proj1 (proj2 (proj2 (bestScore_persists false 12 7 ∅)))).
    by right.
  - destruct (bestScore_persists true 0 7
                {[BEST_SCORE_KEY := codeUnits "best"]})
      as (_ & _ & _ & _ & Hload).
    destruct (Hload (Finite 7)) as (_ & _ & Hnan & _).
    apply (Hnan [] [] (codeUnits "best")).
    + constructor.
    + by left.
    + intros u t [= ? ?]. subst. by vm_compute.
    + apply lookup_singleton_eq.
  - destruct (bestScore_persists true 0 7
                {[BEST_SCORE_KEY := [160%N] ++ numberToString 7]})
      as (_ & _ & _ & _ & Hload).
    destruct (Hload (Finite 0)) as (_ & _ & _ & Hnum).
    apply (Hnum [160%N] 7).
    + repeat constructor.
    + by vm_compute.
    + apply lookup_singleton_eq.
Defined.

(** ** What the page shows *)

Section Display.
Import HomePage.

(** X24.  The status line and the controls agree with the timer: the
    timer is armed exactly when the status shown is the one of a running
    game, the status is Game Over exactly when the game is over, and the
    Pause button is enabled exactly when the status is running or paused.  In
    a reachable state the status is the one of a game not started exactly
    before the first start, and the Pause button reads Resume exactly when
    the status is the one of a paused game. *)
Theorem status_shown st :
  (timerArmed st = true ↔ statusLabel st = "Игра идёт")
  ∧ (isGameOver st = true ↔ statusLabel st = "Game Over")
  ∧ (pauseEnabled st = true ↔
     statusLabel st = "Игра идёт" ∨ statusLabel st = "Пауза")
  ∧ (reachable st →
     (isStarted st = false ↔ statusLabel st = "Не начато")
     ∧ (pauseButtonLabel st = "Resume" ↔ statusLabel st = "Пауза")).
Proof.
  split; [|split; [|split]].
  - unfold timerArmed, statusLabel.
    destruct (isStarted st), (isPaused st), (isGameOver st); by split.
  - unfold statusLabel.
    destruct (isStarted st), (isPaused st), (isGameOver st); by split.
  - unfold pauseEnabled, statusLabel.
    destruct (isStarted st), (isPaused st), (isGameOver st); simpl;
      split; try done; try (by left); try (by right); by intros [|].
  - intros Hreach.
    destruct (reachable_flags st Hreach) as (_ & Hover & Hfresh).
    unfold statusLabel, pauseButtonLabel.
    destruct (isStarted st), (isPaused st), (isGameOver st); simpl;
      split; split; try done;
      try (by specialize (Hover eq_refl));
      try (by destruct (Hfresh eq_refl) as (_ & _ & _ & _ & ? & ?)).
Qed.

Lemma status_shown_witness :
  (isStarted (clickPause running) = false ↔
   statusLabel (clickPause running) = "Не начато")
  ∧ (pauseButtonLabel (clickPause running) = "Resume" ↔
     statusLabel (clickPause running) = "Пауза").
Proof.
  apply (proj2 (proj2 (proj2 (status_shown (clickPause running))))).
  apply (reachable_step running); [apply reachable_running|].
  by apply step_pause.
Defined.

End Display.

Lemma drawSegments_onCanvas snake k :
  Forall inGrid snake →
  Forall onCanvas
    (concat (imap (λ i, drawSegment 25 (k + i)) snake)).
Proof.
  intros Hgrid. revert k.
  induction Hgrid as [|c snake Hc _ IH]; intros k; [constructor|].
  simpl. constructor; [done|]. constructor.
  - destruct Hc as [Hx Hy]. unfold GRID_SIZE in *.
    unfold onCanvas, DESKTOP_BOARD_SIZE. lia.
  - eapply Forall_impl; [|by intros ? H; exact H].
    erewrite imap_ext; [apply (IH (S k))|].
    intros i s _. simpl. f_equal. lia.
Qed.

Lemma covers_true x0 y0 w h px py :
  covers x0 y0 w h px py = true ↔
  (x0 <= px < x0 + w) ∧ (y0 <= py < y0 + h).
Proof.
  unfold covers. rewrite !andb_true_iff, !Z.leb_le, !Z.ltb_lt. lia.
Qed.

Lemma covers_cellSquare margin c px py :
  covers (x c * 25 + margin) (y c * 25 + margin)
    (25 - 2 * margin) (25 - 2 * margin) px py = true
  ↔ cellSquare margin c px py.
Proof. rewrite covers_true. unfold cellSquare. lia. Qed.

Lemma cellSquare_disjoint a b px py :
  a ≠ b → cellSquare 1 a px py → ¬ cellSquare 1 b px py.
Proof.
  destruct a as [ax ay], b as [bx by']. unfold cellSquare. simpl.
  intros Hne Ha Hb. apply Hne. f_equal; lia.
Qed.

(** Calls that fill nothing leave the colours as they are. *)
Lemma paint_strokes px py state calls :
  Forall (λ call, match call with
                  | fillStyle _ | fillRect _ _ _ _ | clearRect _ _ _ _ => False
                  | _ => True
                  end) calls →
  foldl (paint px py) state calls = state.
Proof.
  intros Hcalls. revert state.
  induction Hcalls as [|call calls Hcall _ IH]; intros state; [done|].
  simpl. rewrite <-(IH state) at 2. f_equal. by destruct call.
Qed.

(** The segments, drawn from index [k] on, over a colour [colour]. *)
Lemma paint_segments px py snake k style colour :
  NoDup snake →
  let result :=
    (foldl (paint px py) (style, colour)
       (concat (imap (λ i, drawSegment 25 (k + i)) snake))).2 in
  (∀ i s, snake !! i = Some s → cellSquare 1 s px py →
          result = Some (if decide ((k + i)%nat = 0%nat)
                         then "#22c55e" else "#4ade80"))
  ∧ ((∀ s, s ∈ snake → ¬ cellSquare 1 s px py) → result = colour).
Proof.
  intros Hnd. revert k style colour.
  induction Hnd as [|c rest Hc Hnd IH]; intros k style colour result.
  { split; [by intros i s ?|done]. }
  set (mine := if decide ((k + 0)%nat = 0%nat) then "#22c55e"
               else "#4ade80").
  set (after := if covers (x c * 25 + 1) (y c * 25 + 1)
                     (25 - 2 * 1) (25 - 2 * 1) px py
                then Some mine else colour).
  assert (result
          = (foldl (paint px py) (mine, after)
               (concat (imap (λ i, drawSegment 25 (S k + i)) rest))).2)
    as Hresult.
  { assert (imap ((λ i, drawSegment 25 (k + i)) ∘ S) rest
            = imap (λ i, drawSegment 25 (S k + i)) rest) as Himap.
    { apply imap_ext. intros i s _. simpl. f_equal. lia. }
    unfold result. rewrite imap_cons, concat_cons, foldl_app, Himap.
    reflexivity. }
  destruct (IH (S k) mine after) as [IHin IHout].
  rewrite <-Hresult in IHin, IHout. split.
  - intros [|i] s Hs Hsq.
    + simpl in Hs. injection Hs as <-.
      rewrite IHout.
      * unfold after.
        by rewrite (proj2 (covers_cellSquare 1 c px py) Hsq).
      * intros s Hin. apply (cellSquare_disjoint c s); [|done].
        intros ->. done.
    + simpl in Hs. rewrite (IHin i s Hs Hsq).
      by replace (k + S i)%nat with (S k + i)%nat by lia.
  - intros Hout. rewrite IHout.
    + unfold after.
      destruct (covers _ _ _ _ px py) eqn:Hcov; [|done].
      apply (covers_cellSquare 1 c px py) in Hcov.
      destruct (Hout c); [left|done].
    + intros s Hin. apply Hout. by right.
Qed.

(** X25.  What the drawing effect leaves on the canvas, for a snake
    without duplicates and a food on the board.  Every rectangle filled or
    cleared and every end point of a grid line lies within the 600 by 600
    square.  After the calls of [drawBoard], a pixel within the inner 23 by
    23 square of the cell of a segment has the colour of the head when the
    segment is the first and the colour of the body otherwise (also when the
    food is on that cell); a pixel in no such square has the colour of the
    food within the inner 21 by 21 square of the food cell, the background
    colour elsewhere on the board, and is not filled off the board. *)
Theorem drawBoard_on_canvas snake food :
  Forall inGrid snake → NoDup snake → inGrid food →
  Forall onCanvas (drawBoard snake food)
  ∧ (∀ px py,
       (∀ i s, snake !! i = Some s → cellSquare 1 s px py →
          filledColour (drawBoard snake food) px py
          = Some (if decide (i = 0%nat) then "#22c55e" else "#4ade80"))
       ∧ ((∀ s, s ∈ snake → ¬ cellSquare 1 s px py) →
          (cellSquare 2 food px py →
           filledColour (drawBoard snake food) px py = Some "#f43f5e")
          ∧ (¬ cellSquare 2 food px py →
             0 <= px < 600 → 0 <= py < 600 →
             filledColour (drawBoard snake food) px py = Some "#020617")
          ∧ (¬ (0 <= px < 600 ∧ 0 <= py < 600) →
             filledColour (drawBoard snake food) px py = None))).
Proof.
  intros Hsnake Hnd Hfood. split.
  - unfold drawBoard.
    change (DESKTOP_BOARD_SIZE / GRID_SIZE) with 25.
    apply Forall_app_2; [|apply Forall_app_2; [|apply Forall_app_2]].
    + repeat constructor; unfold DESKTOP_BOARD_SIZE; lia.
    + apply Forall_forall. intros call Hcall.
      apply list_elem_of_bind in Hcall as (i & Hcall & Hi).
      apply elem_of_seqZ in Hi. unfold GRID_SIZE in Hi.
      unfold drawGridLine in Hcall.
      repeat (apply elem_of_cons in Hcall as [->|Hcall];
              [unfold onCanvas, DESKTOP_BOARD_SIZE; try done; lia|]).
      by apply elem_of_nil in Hcall.
    + destruct Hfood as [Hx Hy]. unfold GRID_SIZE in *.
      repeat constructor; unfold DESKTOP_BOARD_SIZE; lia.
    + apply (drawSegments_onCanvas snake 0 Hsnake).
  - intros px py.
    set (board := if covers 0 0 600 600 px py then Some "#020617" else None).
    set (under := if covers (x food * 25 + 2) (y food * 25 + 2)
                       (25 - 2 * 2) (25 - 2 * 2) px py
                  then Some "#f43f5e" else board).
    assert (filledColour (drawBoard snake food) px py
            = (foldl (paint px py) ("#f43f5e", under)
                 (concat (imap (λ i, drawSegment 25 (0 + i)) snake))).2)
      as Hcolour.
    { unfold filledColour, drawBoard.
      change (DESKTOP_BOARD_SIZE / GRID_SIZE) with 25.
      set (lines := i ← seqZ 0 (GRID_SIZE + 1);
                    drawGridLine DESKTOP_BOARD_SIZE 25 i).
      rewrite !foldl_app.
      rewrite (paint_strokes px py _ lines).
      - unfold under, board. change DESKTOP_BOARD_SIZE with 600.
        cbn [foldl paint fst snd].
        by destruct (covers 0 0 600 600 px py).
      - apply Forall_forall. intros call Hcall.
        apply list_elem_of_bind in Hcall as (i & Hcall & _).
        unfold drawGridLine in Hcall.
        repeat (apply elem_of_cons in Hcall as [->|Hcall]; [done|]).
        by apply elem_of_nil in Hcall. }
    destruct (paint_segments px py snake 0 "#f43f5e" under Hnd)
      as [Hin Hout].
    rewrite <-Hcolour in Hin, Hout. split; [exact Hin|].
    intros Hfree. rewrite (Hout Hfree). unfold under, board.
    split; [|split].
    + intros Hsq.
      by rewrite (proj2 (covers_cellSquare 2 food px py) Hsq).
    + intros Hsq Hx Hy.
      destruct (covers (x food * 25 + 2) _ _ _ px py) eqn:Hcov.
      { by apply (covers_cellSquare 2 food px py) in Hcov. }
      by rewrite (proj2 (covers_true 0 0 600 600 px py)) by lia.
    + intros Hoff.
      destruct (covers (x food * 25 + 2) _ _ _ px py) eqn:Hcov.
      { apply (covers_cellSquare 2 food px py) in Hcov.
        destruct Hfood as [Hfx Hfy], Hcov as [Hcx Hcy].
        unfold GRID_SIZE in *. destruct Hoff. lia. }
      destruct (covers 0 0 600 600 px py) eqn:Hb; [|done].
      apply covers_true in Hb. destruct Hoff. lia.
Qed.

Lemma drawBoard_on_canvas_witness :
  filledColour (drawBoard createInitialSnake (mkPoint 13 12)) 301 312
  = Some "#22c55e"
  ∧ filledColour (drawBoard createInitialSnake (mkPoint 13 12)) 276 312
    = Some "#4ade80"
  ∧ filledColour (drawBoard createInitialSnake (mkPoint 13 12)) 327 302
    = Some "#f43f5e"
  ∧ filledColour (drawBoard createInitialSnake (mkPoint 13 12)) 325 300
    = Some "#020617".
Proof.
  destruct (drawBoard_on_canvas createInitialSnake (mkPoint 13 12))
    as [_ Hpixels].
  - repeat constructor; by vm_compute.
  - apply (bool_decide_unpack _). by vm_compute.
  - by vm_compute.
  - assert (∀ px py, (px < 251 ∨ 324 <= px ∨ py < 301 ∨ 324 <= py) →
              ∀ s, s ∈ createInitialSnake → ¬ cellSquare 1 s px py)
      as Hfree.
    { intros px py Hout s Hs [Hx Hy].
      change createInitialSnake
        with [mkPoint 12 12; mkPoint 11 12; mkPoint 10 12] in Hs.
      repeat (apply elem_of_cons in Hs as [->|Hs]; [simpl in *; lia|]).
      by apply elem_of_nil in Hs. }
    split; [|split; [|split]].
    + apply (proj1 (Hpixels 301 312) 0%nat (mkPoint 12 12)); [done|].
      unfold cellSquare. simpl. lia.
    + apply (proj1 (Hpixels 276 312) 1%nat (mkPoint 11 12)); [done|].
      unfold cellSquare. simpl. lia.
    + apply (proj2 (Hpixels 327 302)); [apply Hfree; lia|].
      unfold cellSquare. simpl. lia.
    + apply (proj2 (Hpixels 325 300)); [apply Hfree; lia| |lia|lia].
      unfold cellSquare. simpl. lia.
Defined.
